(** * Economics of Technology Adoption: the simulation of [streamlit_app.py]

    A shallow embedding of the simulation block of the script (lines 32-50)
    and of the key-insight metrics (lines 82-84), followed by the properties
    of the adoption state, the adoption timeline and the failure paths.

    Conventions of the embedding.
    - Python integers are [Z]; array indices are [nat].
    - The configured values [gini], [p], [q] and the threshold are
      rationals [Q]. The incomes, the division by [gini] and the two
      percentages of the report are computed on exact rationals.
    - The adoption probability of line 48 and its comparison with the draw
      on line 49 are computed in binary64, with the operations of the
      standard library's [SpecFloat]: the division, the product and the sum
      are each rounded to nearest, ties to even.
    - The process-wide numpy generator is an explicit state: a cursor into
      the output of a [BitGenerator], threaded through every sampling call
      in program order.
    - Boolean numpy arrays are [list bool]; in-place index assignment is
      stdpp's list insert. *)

From Stdlib Require Import ZArith QArith Lia Lqa SpecFloat.
From stdpp Require Import base list.

Close Scope Q_scope.
Open Scope nat_scope.

(** ** Exceptions *)

(** The numpy call whose argument check raised. *)
Inductive Site := Pareto | Choice.

(** The exceptions this script can end with, followed by the two error kinds
    that the specification names. No statement of the script raises
    [InvalidParameter] or [InsufficientMarket]: they are listed so that the
    outcome of a run can be compared with them. *)
Inductive exn :=
| ZeroDivisionError
| ValueError (raised_by : Site)
| IndexError
| InvalidParameter
| InsufficientMarket.

Notation "'let*' x ':=' c 'in' k" :=
  (match c with inl e => inl e | inr x => k end)
  (at level 10, x pattern, c at level 100, k at level 200, only parsing).

(** ** The random generator *)

(** What the seeded generator delivers at each position of its stream. The
    transcendental transformation behind a Pareto variate is not computed:
    [variate a n] is the variate of shape [a] that the generator yields at
    position [n]. [word n] is the raw integer output at position [n]. *)
Record BitGenerator := {
  variate : Q -> nat -> Q;
  word : nat -> Z
}.

(** [np.random.seed(42)]: the cursor goes back to the start of the stream. *)
Definition seed (_ : Z) : nat := 0.

Definition two53 : positive := 9007199254740992.

(** [np.random.rand()]: 53 random bits scaled into the unit interval. *)
Definition rand (g : BitGenerator) (s : nat) : Q * nat :=
  (Qmake (word g s mod Z.pos two53) two53, S s).

(** [np.random.pareto(a, size)]. *)
Definition pareto (g : BitGenerator) (a : Q) (size : Z) (s : nat)
  : exn + (list Q * nat) :=
  if Qle_bool a 0 then inl (ValueError Pareto)
  else if (size <? 0)%Z then inl (ValueError Pareto)
  else inr (variate g a <$> seq s (Z.to_nat size), s + Z.to_nat size).

(** Sampling without replacement: [k] times, the generator picks a position
    in the remaining pool and the element there leaves the pool. *)
Fixpoint sample (g : BitGenerator) (pool : list nat) (k : nat) (s : nat)
  : list nat * nat :=
  match k with
  | O => ([], s)
  | S k' =>
      let j := Z.to_nat (word g s mod Z.of_nat (length pool)) in
      match pool !! j with
      | None => ([], s)
      | Some x =>
          let '(rest, s') := sample g (delete j pool) k' (S s) in
          (x :: rest, s')
      end
  end.

(** [np.random.choice(a, size=size, replace=False)]. *)
Definition choice (g : BitGenerator) (a : list nat) (size : Z) (s : nat)
  : exn + (list nat * nat) :=
  if (length a =? 0) && negb (size =? 0)%Z then inl (ValueError Choice)
  else if (Z.of_nat (length a) <? size)%Z then inl (ValueError Choice)
  else inr (sample g a (Z.to_nat size) s).

(** ** Array primitives *)

(** [np.sum] of a boolean array. *)
Fixpoint np_sum (a : list bool) : Z :=
  match a with
  | [] => 0
  | b :: a' => ((if b then 1 else 0) + np_sum a')%Z
  end.

(** [np.where(mask)[0]], the indices of the true entries in increasing
    order; [i] is the index of the head of [mask]. *)
Fixpoint where_from (i : nat) (mask : list bool) : list nat :=
  match mask with
  | [] => []
  | b :: mask' =>
      if b then i :: where_from (S i) mask' else where_from (S i) mask'
  end.

Definition np_where (mask : list bool) : list nat := where_from 0 mask.

(** [np.zeros(n, dtype=bool)]. *)
Definition np_zeros (n : Z) : list bool := replicate (Z.to_nat n) false.

(** [a[idxs] = True]. *)
Fixpoint set_true (idxs : list nat) (a : list bool) : list bool :=
  match idxs with
  | [] => a
  | i :: idxs' => set_true idxs' (<[i := true]> a)
  end.

(** [~a & b], element by element. *)
Definition andn (a b : list bool) : list bool :=
  zip_with (fun x y => negb x && y) a b.

(** ** Binary64 arithmetic *)

Definition b64_prec : Z := 53.
Definition b64_emax : Z := 1024.

(** The conversion of an integer to a float. *)
Definition b64_of_Z (n : Z) : spec_float :=
  binary_normalize b64_prec b64_emax n 0 false.

Definition b64_div : spec_float -> spec_float -> spec_float :=
  SFdiv b64_prec b64_emax.
Definition b64_mul : spec_float -> spec_float -> spec_float :=
  SFmul b64_prec b64_emax.
Definition b64_add : spec_float -> spec_float -> spec_float :=
  SFadd b64_prec b64_emax.

(** [<] and [<=] on floats; both are false when an operand is not a
    number. *)
Definition b64_ltb : spec_float -> spec_float -> bool := SFltb.
Definition b64_leb : spec_float -> spec_float -> bool := SFleb.

Definition b64_zero : spec_float := S754_zero false.
Definition b64_one : spec_float := b64_of_Z 1.

(** The float that a configured rational stands for: numerator and
    denominator are converted and divided in binary64. While both are below
    2^53 this is the float nearest to the rational. *)
Definition b64_of_Q (x : Q) : spec_float :=
  b64_div (b64_of_Z (Qnum x)) (b64_of_Z (Z.pos (Qden x))).

(** The float of a uniform draw [k / 2^53], which binary64 holds exactly. *)
Definition b64_of_unit (u : Q) : spec_float :=
  binary_normalize b64_prec b64_emax (Qnum u) (-53) false.

(** ** The simulation *)

Record Config := {
  population_size : Z;
  gini : Q;
  p : Q;
  q : Q;
  income_threshold : Q;
  time_periods : Z
}.

(** The variables of the simulation block, with the generator's cursor. *)
Record State := {
  incomes : list Q;
  can_afford : list bool;
  initial_adopters : list nat;
  has_adopted : list bool;
  adoption_timeline : list Z;
  rng : nat
}.

(** [max(10, population_size // 100)]. *)
Definition initial_count (n : Z) : Z := Z.max 10 (n / 100).

(** Lines 32-40. *)
Definition init (g : BitGenerator) (c : Config) : exn + State :=
  let s := seed 42 in
  let* shape := (if Qeq_bool (gini c) 0 then inl ZeroDivisionError
                 else inr (1 / gini c)%Q) in
  let* (raw, s) := pareto g shape (population_size c) s in
  let incomes := (fun x => (x * 20000)%Q) <$> raw in
  let can_afford := (fun x => Qle_bool (income_threshold c) x) <$> incomes in
  let has_adopted := np_zeros (population_size c) in
  let* (initial_adopters, s) :=
    choice g (np_where can_afford) (initial_count (population_size c)) s in
  let has_adopted := set_true initial_adopters has_adopted in
  inr {| incomes := incomes; can_afford := can_afford;
         initial_adopters := initial_adopters; has_adopted := has_adopted;
         adoption_timeline := []; rng := s |}.

(** Lines 47-50, the loop over [potential_adopters_idx]. The probability is
    recomputed for each agent from [current_adopters], which the loop never
    updates. *)
Fixpoint adopt_loop (g : BitGenerator) (c : Config) (current_adopters : Z)
    (idxs : list nat) (has_adopted : list bool) (s : nat) : list bool * nat :=
  match idxs with
  | [] => (has_adopted, s)
  | idx :: idxs' =>
      let prob_adopt :=
        b64_add (b64_of_Q (p c))
          (b64_mul (b64_of_Q (q c))
             (b64_div (b64_of_Z current_adopters)
                (b64_of_Z (population_size c)))) in
      let '(u, s) := rand g s in
      let has_adopted :=
        if b64_ltb (b64_of_unit u) prob_adopt then <[idx := true]> has_adopted
        else has_adopted in
      adopt_loop g c current_adopters idxs' has_adopted s
  end.

(** Lines 44-50, one iteration of the loop over [range(time_periods)]. *)
Definition step (g : BitGenerator) (c : Config) (st : State) : State :=
  let current_adopters := np_sum (has_adopted st) in
  let adoption_timeline := adoption_timeline st ++ [current_adopters] in
  let potential_adopters_idx :=
    np_where (andn (has_adopted st) (can_afford st)) in
  let '(has_adopted, s) :=
    adopt_loop g c current_adopters potential_adopters_idx
      (has_adopted st) (rng st) in
  {| incomes := incomes st; can_afford := can_afford st;
     initial_adopters := initial_adopters st; has_adopted := has_adopted;
     adoption_timeline := adoption_timeline; rng := s |}.

(** [for t in range(n)]: the body does not read [t]. *)
Fixpoint loop (g : BitGenerator) (c : Config) (n : nat) (st : State) : State :=
  match n with
  | O => st
  | S n' => loop g c n' (step g c st)
  end.

(** Lines 32-50. *)
Definition simulate (g : BitGenerator) (c : Config) : exn + State :=
  let* st := init g c in
  inr (loop g c (Z.to_nat (time_periods c)) st).

(** ** The key-insight metrics *)

(** numpy's true division of two integers; [None] stands for the division
    evaluated with a zero divisor. *)
Definition true_divide (a b : Z) : option Q :=
  if (b =? 0)%Z then None else Some (inject_Z a / inject_Z b)%Q.

(** Line 84. *)
Definition market_penetration (final_adopters total_addressable_market : Z)
  : option Q :=
  if (total_addressable_market >? 0)%Z
  then match true_divide final_adopters total_addressable_market with
       | Some r => Some (r * 100)%Q
       | None => None
       end
  else Some 0%Q.

Record Report := {
  total_addressable_market : Z;
  final_adopters : Z;
  penetration : option Q
}.

(** Lines 82-84; [adoption_timeline[-1]] raises on an empty list. *)
Definition report (st : State) : exn + Report :=
  let total_addressable_market := np_sum (can_afford st) in
  let* final_adopters :=
    match last (adoption_timeline st) with
    | Some x => inr x
    | None => inl IndexError
    end in
  inr {| total_addressable_market := total_addressable_market;
         final_adopters := final_adopters;
         penetration := market_penetration final_adopters
                          total_addressable_market |}.

(** The whole run behind the button. *)
Definition run (g : BitGenerator) (c : Config) : exn + (State * Report) :=
  let* st := simulate g c in
  let* r := report st in
  inr (st, r).

(** * Vocabulary of the statements *)

(** The exact value of the formula of line 48 for a given snapshot
    count. *)
Definition adoption_probability (c : Config) (current_adopters : Z) : Q :=
  (p c + q c * (inject_Z current_adopters / inject_Z (population_size c)))%Q.

(** The value that line 48 computes for a given snapshot count. *)
Definition prob_adopt (c : Config) (current_adopters : Z) : spec_float :=
  b64_add (b64_of_Q (p c))
    (b64_mul (b64_of_Q (q c))
       (b64_div (b64_of_Z current_adopters) (b64_of_Z (population_size c)))).

(** The floats of the draws: positive zero, or a positive number whose
    exponent keeps it below 1. *)
Definition unit_float (x : spec_float) : Prop :=
  x = S754_zero false \/
  exists m e, x = S754_finite false m e /\ (e <= -53)%Z.

(** The test of line 49 on the draw at cursor [s]. *)
Definition wins (g : BitGenerator) (c : Config) (current_adopters : Z)
    (s : nat) : bool :=
  b64_ltb (b64_of_unit (fst (rand g s))) (prob_adopt c current_adopters).

(** [grows a b]: same length, and every true entry of [a] is true in [b]. *)
Definition grows (a b : list bool) : Prop :=
  Forall2 (fun x y => x = true -> y = true) a b.

(** The affordability mask that a run computes from the generator: agent
    [n] receives the variate at stream position [n]. *)
Definition market (g : BitGenerator) (c : Config) : list bool :=
  (fun n => Qle_bool (income_threshold c)
              (variate g (1 / gini c)%Q n * 20000)%Q)
    <$> seq 0 (Z.to_nat (population_size c)).

(** The addressable market size. *)
Definition addressable (g : BitGenerator) (c : Config) : Z :=
  np_sum (market g c).

(** A valid configuration: the constraints on the six inputs, and an
    addressable market that can seed the initial adopters. *)
Record valid (g : BitGenerator) (c : Config) : Prop := {
  valid_population : (0 < population_size c)%Z;
  valid_gini : (0 < gini c)%Q;
  valid_p : (0 <= p c)%Q;
  valid_q : (0 <= q c)%Q;
  valid_threshold : (0 <= income_threshold c)%Q;
  valid_periods : (0 < time_periods c)%Z;
  valid_market : (initial_count (population_size c) <= addressable g c)%Z
}.

(** The state of the run after initialisation and [t] iterations. *)
Definition state_after (g : BitGenerator) (c : Config) (t : nat) : exn + State :=
  let* st := init g c in
  inr (loop g c t st).

(** Every adopted agent is affordable. *)
Definition adopters_affordable (st : State) : Prop :=
  forall i, has_adopted st !! i = Some true -> can_afford st !! i = Some true.

(** ** Concrete runs *)

(** Every agent earns 20000 and every raw output is 0: each uniform draw is
    0 and each sampling pick takes the head of the pool. *)
Definition gen_rich : BitGenerator :=
  {| variate := fun _ _ => 1%Q; word := fun _ => 0%Z |}.

(** Only the agents at stream positions 0 to 4 earn 40000; the others earn
    nothing. *)
Definition gen_poor : BitGenerator :=
  {| variate := fun _ n => if n <? 5 then 2%Q else 0%Q; word := fun _ => 0%Z |}.

(** Twenty agents, one period. *)
Definition cfg_single : Config :=
  {| population_size := 20; gini := (45 # 100)%Q; p := (2 # 100)%Q;
     q := (45 # 100)%Q; income_threshold := 15000%Q; time_periods := 1 |}.

(** Twenty agents, three periods. *)
Definition cfg_three : Config :=
  {| population_size := 20; gini := (45 # 100)%Q; p := (2 # 100)%Q;
     q := (45 # 100)%Q; income_threshold := 15000%Q; time_periods := 3 |}.

(** The scenario N=100, gini=0.2, threshold=30000. *)
Definition cfg_scenario : Config :=
  {| population_size := 100; gini := (2 # 10)%Q; p := (2 # 100)%Q;
     q := (45 # 100)%Q; income_threshold := 30000%Q; time_periods := 30 |}.


(** Every uniform draw is 6004799503160661 / 2^53, the float that line 48
    computes for 0.5 + 0.5 * (10 / 30). *)
Definition gen_two_thirds : BitGenerator :=
  {| variate := fun _ _ => 1%Q; word := fun _ => 6004799503160661%Z |}.

(** Thirty agents, [p = 0.5] and [q = 0.5]. *)
Definition cfg_thirds : Config :=
  {| population_size := 30; gini := (45 # 100)%Q; p := (1 # 2)%Q;
     q := (1 # 2)%Q; income_threshold := 15000%Q; time_periods := 2 |}.

(** An empty population. *)
Definition cfg_empty : Config :=
  {| population_size := 0; gini := (45 # 100)%Q; p := (2 # 100)%Q;
     q := (45 # 100)%Q; income_threshold := 15000%Q; time_periods := 30 |}.

(** A gini coefficient of zero. *)
Definition cfg_gini0 : Config :=
  {| population_size := 1000; gini := 0%Q; p := (2 # 100)%Q;
     q := (45 # 100)%Q; income_threshold := 15000%Q; time_periods := 30 |}.

(** The largest value of 53 bits. *)
Definition max53 : Z := 9007199254740991.

(** Every uniform draw is the largest possible one. *)
Definition gen_high : BitGenerator :=
  {| variate := fun _ _ => 1%Q; word := fun _ => max53 |}.



(** Three agents, a fair coin for each. *)
Definition cfg_coin : Config :=
  {| population_size := 3; gini := (45 # 100)%Q; p := (1 # 2)%Q; q := 0%Q;
     income_threshold := 15000%Q; time_periods := 12 |}.

(** Three affordable agents, none adopted. *)
Definition st_none : State :=
  {| incomes := [20000%Q; 20000%Q; 20000%Q]; can_afford := [true; true; true];
     initial_adopters := []; has_adopted := [false; false; false];
     adoption_timeline := []; rng := 0 |}.

(** The draw of agent 1 is the largest one, the draws of the others are 0. *)
Definition draw_by_agent (a : nat) : Q :=
  Qmake (if a =? 1 then max53 else 0%Z) two53.

(** A stream that delivers [draw_by_agent] to a visit in the order 0, 1, 2. *)
Definition gen_ascending : BitGenerator :=
  {| variate := fun _ _ => 1%Q;
     word := fun n => if n =? 1 then max53 else 0%Z |}.

(** A stream that delivers [draw_by_agent] to a visit in the order 2, 0, 1. *)
Definition gen_rotated : BitGenerator :=
  {| variate := fun _ _ => 1%Q;
     word := fun n => if n =? 2 then max53 else 0%Z |}.

(** ** Further vocabulary *)

(** The number of draws that pass the test of line 49 among the [n] draws
    that start at cursor [s]. *)
Fixpoint successes (g : BitGenerator) (c : Config) (current_adopters : Z)
    (s n : nat) : Z :=
  match n with
  | O => 0
  | S n' =>
      ((if wins g c current_adopters s then 1 else 0)
       + successes g c current_adopters (S s) n')%Z
  end.

(** Line 90, the share of the population that is addressable, before it is
    formatted. *)
Definition addressable_share (total_addressable_market population_size : Z) : Q :=
  (inject_Z total_addressable_market / inject_Z population_size * 100)%Q.

(** The potential adopters of a period, line 46. *)
Definition potential_adopters_idx (st : State) : list nat :=
  np_where (andn (has_adopted st) (can_afford st)).

(** Twenty agents, three periods, no innovation and no network effect. *)
Definition cfg_idle : Config :=
  {| population_size := 20; gini := (45 # 100)%Q; p := 0%Q; q := 0%Q;
     income_threshold := 15000%Q; time_periods := 3 |}.

(** Twenty agents and no period at all. *)
Definition cfg_no_period : Config :=
  {| population_size := 20; gini := (45 # 100)%Q; p := (2 # 100)%Q;
     q := (45 # 100)%Q; income_threshold := 15000%Q; time_periods := 0 |}.

(** Twenty agents, three periods, [p = 1]. *)
Definition cfg_certain : Config :=
  {| population_size := 20; gini := (45 # 100)%Q; p := 1%Q; q := (45 # 100)%Q;
     income_threshold := 15000%Q; time_periods := 3 |}.

(** Three agents, no innovation and no network effect. *)
Definition cfg_still : Config :=
  {| population_size := 3; gini := (45 # 100)%Q; p := 0%Q; q := 0%Q;
     income_threshold := 15000%Q; time_periods := 12 |}.

(** Lines 22-27: the ranges of the six sliders. *)
Record from_sliders (c : Config) : Prop := {
  slider_population : (500 <= population_size c <= 5000)%Z;
  slider_gini : (2 # 10 <= gini c)%Q /\ (gini c <= 6 # 10)%Q;
  slider_p : (0 <= p c)%Q /\ (p c <= 1 # 10)%Q;
  slider_q : (1 # 10 <= q c)%Q /\ (q c <= 8 # 10)%Q;
  slider_threshold :
    (5000 <= income_threshold c)%Q /\ (income_threshold c <= 30000)%Q;
  slider_periods : (12 <= time_periods c <= 60)%Z
}.

(** The values the sliders start with. *)
Definition cfg_default : Config :=
  {| population_size := 1000; gini := (45 # 100)%Q; p := (2 # 100)%Q;
     q := (45 # 100)%Q; income_threshold := 15000%Q; time_periods := 30 |}.

(** * Properties *)

(** ** Uniform draws and comparisons *)

Lemma rand_range (g : BitGenerator) (s : nat) :
  (0 <= fst (rand g s))%Q /\ (fst (rand g s) < 1)%Q.
Proof.
  pose proof (Z.mod_pos_bound (word g s) (Z.pos two53) eq_refl) as [Hlo Hhi].
  unfold rand, Qle, Qlt. simpl fst. simpl Qnum. simpl Qden. lia.
Qed.

Lemma rand_cursor (g : BitGenerator) (s : nat) : snd (rand g s) = S s.
Proof. reflexivity. Qed.

(** ** The float of a draw *)

Lemma digits2_pos_lower (m : positive) :
  (2 ^ (Z.pos (digits2_pos m) - 1) <= Z.pos m)%Z.
Proof.
  induction m as [m IH|m IH|]; simpl digits2_pos.
  - rewrite Pos2Z.inj_succ.
    replace (Z.succ (Z.pos (digits2_pos m)) - 1)%Z
      with (Z.succ (Z.pos (digits2_pos m) - 1))%Z by lia.
    rewrite Z.pow_succ_r by lia. lia.
  - rewrite Pos2Z.inj_succ.
    replace (Z.succ (Z.pos (digits2_pos m)) - 1)%Z
      with (Z.succ (Z.pos (digits2_pos m) - 1))%Z by lia.
    rewrite Z.pow_succ_r by lia. lia.
  - simpl. lia.
Qed.

Lemma digits2_pos_le_53 (m : positive) :
  (Z.pos m < 2 ^ 53)%Z -> (Z.pos (digits2_pos m) <= 53)%Z.
Proof.
  intros H. pose proof (digits2_pos_lower m) as Hlo.
  destruct (Z_le_gt_dec (Z.pos (digits2_pos m)) 53) as [Hle|Hgt]; [exact Hle|].
  exfalso.
  assert (2 ^ 53 <= 2 ^ (Z.pos (digits2_pos m) - 1))%Z
    by (apply Z.pow_le_mono_r; lia).
  lia.
Qed.

Lemma digits2_pos_iter_xO (n m : positive) :
  digits2_pos (Pos.iter xO m n) = (digits2_pos m + n)%positive.
Proof.
  induction n as [|n IH] using Pos.peano_ind.
  - simpl. lia.
  - rewrite Pos.iter_succ. simpl digits2_pos. rewrite IH. lia.
Qed.

(** A mantissa of 53 bits with an exponent in range is kept as it is. *)
Lemma binary_round_aux_full (mz : positive) (ez : Z) :
  digits2_pos mz = 53%positive ->
  (-1074 <= ez <= 971)%Z ->
  binary_round_aux b64_prec b64_emax false (Z.pos mz) ez loc_Exact
  = S754_finite false mz ez.
Proof.
  intros Hd He.
  assert (Hn : (fexp b64_prec b64_emax (Zdigits2 (Z.pos mz) + ez) - ez = 0)%Z).
  { unfold fexp, emin, b64_prec, b64_emax. simpl Zdigits2. rewrite Hd. lia. }
  unfold binary_round_aux, shr_fexp. rewrite Hn.
  cbn [shr shr_record_of_loc shr_m shr_r shr_s loc_of_shr_record
       round_nearest_even].
  rewrite Hn.
  cbn [shr shr_record_of_loc shr_m shr_r shr_s loc_of_shr_record
       round_nearest_even].
  assert ((ez <=? b64_emax - b64_prec)%Z = true) as ->
    by (unfold b64_emax, b64_prec; lia).
  reflexivity.
Qed.

Lemma binary_round_unit (m : positive) :
  (Z.pos m < 2 ^ 53)%Z ->
  exists m' e,
    binary_round b64_prec b64_emax false m (-53) = S754_finite false m' e /\
    (e <= -53)%Z.
Proof.
  intros Hm. pose proof (digits2_pos_le_53 m Hm) as Hd.
  unfold binary_round, shl_align.
  assert (Hf : (fexp b64_prec b64_emax (Z.pos (digits2_pos m) + -53)
                = Z.pos (digits2_pos m) - 106)%Z).
  { unfold fexp, emin, b64_prec, b64_emax. lia. }
  rewrite Hf.
  destruct (Z.pos (digits2_pos m) - 106 - -53)%Z as [|d|d] eqn:Ed; try lia.
  - exists m, (-53)%Z. split; [|lia].
    apply binary_round_aux_full; [|lia]. lia.
  - exists (Pos.iter xO m d), (Z.pos (digits2_pos m) - 106)%Z. split; [|lia].
    apply binary_round_aux_full; [|lia].
    rewrite digits2_pos_iter_xO. lia.
Qed.

Lemma rand_unit_float (g : BitGenerator) (s : nat) :
  unit_float (b64_of_unit (fst (rand g s))).
Proof.
  pose proof (Z.mod_pos_bound (word g s) (Z.pos two53) eq_refl) as [Hlo Hhi].
  unfold b64_of_unit, rand. simpl fst. simpl Qnum.
  destruct (word g s mod Z.pos two53)%Z as [|m|m] eqn:Ek; try lia.
  - left. reflexivity.
  - right. apply binary_round_unit. exact Hhi.
Qed.

(** The float of a draw is the quotient that binary64 division gives for
    [k / 2^53], here at the smallest positive draw, at a draw in the middle
    and at the largest one. *)
Example b64_of_unit_is_the_quotient :
  b64_of_unit (1 # two53)
  = b64_div (b64_of_Z 1) (b64_of_Z (Z.pos two53)) /\
  b64_of_unit (6004799503160661 # two53)
  = b64_div (b64_of_Z 6004799503160661) (b64_of_Z (Z.pos two53)) /\
  b64_of_unit (max53 # two53)
  = b64_div (b64_of_Z max53) (b64_of_Z (Z.pos two53)).
Proof. repeat split; vm_compute; reflexivity. Qed.

(** A draw is below every float that is at least 1. *)
Lemma unit_float_below_one (u x : spec_float) :
  unit_float u -> b64_leb b64_one x = true -> b64_ltb u x = true.
Proof.
  intros [-> | (m & e & -> & He)] H;
    destruct x as [sx|sx| |sx mx ex]; try discriminate H;
    destruct sx; try discriminate H; try reflexivity.
  change b64_one with (S754_finite false 4503599627370496 (-52)) in H.
  unfold b64_leb, b64_ltb, SFleb, SFltb, SFcompare in *.
  destruct (Z.compare_spec (-52) ex) as [Heq|Hlt|Hgt]; [| |discriminate H].
  all: assert ((e ?= ex)%Z = Lt) as -> by (apply Z.compare_lt_iff; lia).
  all: reflexivity.
Qed.

(** A draw is below no float that is at most 0. *)
Lemma unit_float_not_below_zero (u x : spec_float) :
  unit_float u -> b64_leb x b64_zero = true -> b64_ltb u x = false.
Proof.
  intros [-> | (m & e & -> & He)] H;
    destruct x as [sx|sx| |sx mx ex]; try discriminate H;
    destruct sx; try discriminate H; reflexivity.
Qed.

(** A draw is below neither a zero nor a value that is not a number. *)
Lemma unit_float_not_below_null (u x : spec_float) :
  unit_float u -> (x = S754_nan \/ exists sx, x = S754_zero sx) ->
  b64_ltb u x = false.
Proof.
  intros [-> | (m & e & -> & He)] [-> | [sx ->]]; reflexivity.
Qed.

(** ** Boolean arrays *)

Lemma np_sum_nonneg (a : list bool) : (0 <= np_sum a)%Z.
Proof. induction a as [|[] a IH]; simpl; lia. Qed.

Lemma np_sum_le_length (a : list bool) : (np_sum a <= Z.of_nat (length a))%Z.
Proof. induction a as [|[] a IH]; simpl length; simpl np_sum; lia. Qed.

Lemma np_sum_replicate_false (n : nat) : np_sum (replicate n false) = 0%Z.
Proof. induction n as [|n IH]; simpl; lia. Qed.

Lemma np_sum_insert_false (a : list bool) (i : nat) :
  a !! i = Some false -> np_sum (<[i := true]> a) = (np_sum a + 1)%Z.
Proof.
  revert i. induction a as [|b a IH]; intros [|i] H; simpl in *; try discriminate.
  - injection H as ->. lia.
  - rewrite (IH i H). lia.
Qed.

Lemma insert_true_id (a : list bool) (i : nat) :
  a !! i = Some true -> <[i := true]> a = a.
Proof. apply list_insert_id. Qed.

Lemma grows_refl (a : list bool) : grows a a.
Proof. induction a; constructor; auto. Qed.

Lemma grows_trans (a b c : list bool) : grows a b -> grows b c -> grows a c.
Proof.
  intros Hab. revert c. induction Hab as [|x y a b Hxy Hab IH]; intros c Hbc.
  - inversion Hbc. constructor.
  - inversion Hbc as [|y' z b' c' Hyz Hbc']; subst. constructor; auto.
    apply IH. assumption.
Qed.

Lemma grows_length (a b : list bool) : grows a b -> length a = length b.
Proof. apply Forall2_length. Qed.

Lemma grows_insert (a : list bool) (i : nat) : grows a (<[i := true]> a).
Proof.
  revert i. induction a as [|b a IH]; intros [|i]; simpl.
  - constructor.
  - constructor.
  - constructor; [auto | apply grows_refl].
  - constructor; [auto | apply IH].
Qed.

Lemma grows_lookup (a b : list bool) (i : nat) :
  grows a b -> a !! i = Some true -> b !! i = Some true.
Proof.
  intros H. revert i. induction H as [|x y a b Hxy Hab IH]; intros [|i] Hi;
    simpl in *; try discriminate.
  - injection Hi as ->. rewrite Hxy; reflexivity.
  - apply IH. exact Hi.
Qed.

Lemma grows_sum (a b : list bool) : grows a b -> (np_sum a <= np_sum b)%Z.
Proof.
  induction 1 as [|x y a b Hxy Hab IH]; simpl; [lia|].
  destruct x, y; try lia; discriminate (Hxy eq_refl).
Qed.

(** ** [np.where] *)

Lemma elem_of_where_from (k : nat) (mask : list bool) (i : nat) :
  i ∈ where_from k mask <-> k <= i /\ mask !! (i - k) = Some true.
Proof.
  revert k. induction mask as [|b mask IH]; intros k; simpl.
  - rewrite elem_of_nil. split; [tauto | intros [_ H]; discriminate].
  - assert (Hrec : i ∈ where_from (S k) mask <->
                   k < i /\ (b :: mask) !! (i - k) = Some true).
    { rewrite IH. split; intros [Hk Hl]; split; try lia.
      - replace (i - k) with (S (i - S k)) by lia. exact Hl.
      - replace (i - k) with (S (i - S k)) in Hl by lia. exact Hl. }
    destruct b.
    + rewrite elem_of_cons, Hrec. split.
      * intros [-> | [Hk Hl]]; [|split; [lia | exact Hl]].
        split; [lia|]. rewrite Nat.sub_diag. reflexivity.
      * intros [Hk Hl]. destruct (decide (i = k)) as [->|Hne]; [left; reflexivity|].
        right. split; [lia | exact Hl].
    + rewrite Hrec. split.
      * intros [Hk Hl]. split; [lia | exact Hl].
      * intros [Hk Hl]. destruct (decide (i = k)) as [->|Hne].
        -- rewrite Nat.sub_diag in Hl. discriminate.
        -- split; [lia | exact Hl].
Qed.

Lemma elem_of_np_where (mask : list bool) (i : nat) :
  i ∈ np_where mask <-> mask !! i = Some true.
Proof.
  unfold np_where. rewrite elem_of_where_from, Nat.sub_0_r.
  split; [tauto | intros H; split; [lia | exact H]].
Qed.

Lemma NoDup_where_from (k : nat) (mask : list bool) : NoDup (where_from k mask).
Proof.
  revert k. induction mask as [|b mask IH]; intros k; simpl.
  - constructor.
  - destruct b; [|apply IH]. constructor; [|apply IH].
    rewrite elem_of_where_from. lia.
Qed.

Lemma length_where_from (k : nat) (mask : list bool) :
  Z.of_nat (length (where_from k mask)) = np_sum mask.
Proof.
  revert k. induction mask as [|b mask IH]; intros k; simpl; [reflexivity|].
  destruct b; simpl length; rewrite <- (IH (S k)); lia.
Qed.

Lemma np_where_nil (mask : list bool) (i : nat) :
  np_where mask = [] -> mask !! i <> Some true.
Proof.
  intros H Hi. apply elem_of_np_where in Hi. rewrite H in Hi.
  apply elem_of_nil in Hi. exact Hi.
Qed.

Lemma lookup_andn (a b : list bool) (i : nat) :
  andn a b !! i = Some true <-> a !! i = Some false /\ b !! i = Some true.
Proof.
  unfold andn. rewrite lookup_zip_with_Some. split.
  - intros (x & y & Hxy & Hx & Hy). destruct x, y; try discriminate. auto.
  - intros [Hx Hy]. exists false, true. auto.
Qed.

Lemma bool_list_ext (a b : list bool) :
  length a = length b ->
  (forall i, a !! i = Some true <-> b !! i = Some true) ->
  a = b.
Proof.
  intros Hlen H. apply list_eq. intros i.
  destruct (a !! i) as [x|] eqn:Ea, (b !! i) as [y|] eqn:Eb.
  - destruct x, y; try reflexivity.
    + apply H in Ea. congruence.
    + apply H in Eb. congruence.
  - apply lookup_lt_Some in Ea. apply lookup_ge_None in Eb. lia.
  - apply lookup_lt_Some in Eb. apply lookup_ge_None in Ea. lia.
  - reflexivity.
Qed.

Lemma lookup_insert_true (a : list bool) (i j : nat) :
  <[i := true]> a !! j = Some true <->
  a !! j = Some true \/ (j = i /\ i < length a).
Proof.
  destruct (decide (i = j)) as [->|Hne].
  - destruct (decide (j < length a)) as [Hlt|Hge].
    + rewrite list_lookup_insert_eq by exact Hlt. split; auto.
    + rewrite list_insert_ge by lia. split; [auto|].
      intros [H | [_ H]]; [exact H | lia].
  - rewrite list_lookup_insert_ne by exact Hne. split; [auto|].
    intros [H | [H _]]; [exact H | congruence].
Qed.

(** ** Sampling without replacement *)

Lemma sample_perm (g : BitGenerator) (k : nat) :
  forall (pool : list nat) (s : nat),
    exists rest, pool ≡ₚ fst (sample g pool k s) ++ rest.
Proof.
  induction k as [|k IH]; intros pool s; simpl.
  - exists pool. reflexivity.
  - destruct (pool !! _) as [x|] eqn:Ex; [|exists pool; reflexivity].
    specialize (IH (delete (Z.to_nat (word g s mod Z.of_nat (length pool))) pool) (S s)).
    destruct (sample g _ k (S s)) as [r s'] eqn:Er. simpl in *.
    destruct IH as [rest Hrest]. exists rest.
    rewrite (delete_Permutation _ _ _ Ex). constructor. exact Hrest.
Qed.

Lemma sample_length (g : BitGenerator) (k : nat) :
  forall (pool : list nat) (s : nat),
    k <= length pool -> length (fst (sample g pool k s)) = k.
Proof.
  induction k as [|k IH]; intros pool s Hk; simpl; [reflexivity|].
  set (j := Z.to_nat (word g s mod Z.of_nat (length pool))).
  assert (Hj : j < length pool).
  { subst j. pose proof (Z.mod_pos_bound (word g s) (Z.of_nat (length pool))). lia. }
  destruct (lookup_lt_is_Some_2 _ _ Hj) as [x Hx]. rewrite Hx.
  specialize (IH (delete j pool) (S s)).
  destruct (sample g (delete j pool) k (S s)) as [r s'] eqn:Er. simpl in *.
  rewrite IH; [reflexivity|].
  rewrite length_delete by eauto. lia.
Qed.

Lemma sample_elem_of (g : BitGenerator) (k : nat) (pool : list nat) (s x : nat) :
  x ∈ fst (sample g pool k s) -> x ∈ pool.
Proof.
  destruct (sample_perm g k pool s) as [rest H]. intros Hx.
  rewrite H. apply elem_of_app. left. exact Hx.
Qed.

Lemma sample_NoDup (g : BitGenerator) (k : nat) (pool : list nat) (s : nat) :
  NoDup pool -> NoDup (fst (sample g pool k s)).
Proof.
  destruct (sample_perm g k pool s) as [rest H]. intros Hnd.
  rewrite H in Hnd. apply NoDup_app in Hnd. tauto.
Qed.

(** ** Index assignment *)

Lemma length_set_true (idxs : list nat) :
  forall a, length (set_true idxs a) = length a.
Proof.
  induction idxs as [|i idxs IH]; intros a; simpl; [reflexivity|].
  rewrite IH. apply length_insert.
Qed.

Lemma lookup_set_true (idxs : list nat) :
  forall a j,
    set_true idxs a !! j = Some true <->
    a !! j = Some true \/ (j ∈ idxs /\ j < length a).
Proof.
  induction idxs as [|i idxs IH]; intros a j; simpl.
  - rewrite elem_of_nil. tauto.
  - rewrite IH, lookup_insert_true, length_insert, elem_of_cons. split.
    + intros [[H | [-> Hi]] | [Hj Hlt]]; auto.
    + intros [H | [[-> | Hj] Hlt]]; auto.
Qed.

Lemma np_sum_set_true (idxs : list nat) :
  forall a,
    NoDup idxs ->
    (forall i, i ∈ idxs -> a !! i = Some false) ->
    np_sum (set_true idxs a) = (np_sum a + Z.of_nat (length idxs))%Z.
Proof.
  induction idxs as [|i idxs IH]; intros a Hnd Hfalse; simpl set_true; simpl length.
  - lia.
  - apply NoDup_cons in Hnd as [Hi Hnd].
    rewrite IH; [| exact Hnd |].
    + rewrite np_sum_insert_false; [lia|]. apply Hfalse. left.
    + intros j Hj. rewrite list_lookup_insert_ne.
      * apply Hfalse. right. exact Hj.
      * intros ->. exact (Hi Hj).
Qed.

(** ** The loop over the potential adopters *)

Lemma adopt_loop_cons g c cur idx idxs h s :
  adopt_loop g c cur (idx :: idxs) h s =
  adopt_loop g c cur idxs
    (if wins g c cur s then <[idx := true]> h else h) (S s).
Proof. reflexivity. Qed.

Lemma adopt_loop_cursor g c cur idxs :
  forall h s, snd (adopt_loop g c cur idxs h s) = s + length idxs.
Proof.
  induction idxs as [|idx idxs IH]; intros h s.
  - simpl. lia.
  - rewrite adopt_loop_cons, IH. simpl. lia.
Qed.

Lemma adopt_loop_grows g c cur idxs :
  forall h s, grows h (fst (adopt_loop g c cur idxs h s)).
Proof.
  induction idxs as [|idx idxs IH]; intros h s.
  - apply grows_refl.
  - rewrite adopt_loop_cons. eapply grows_trans; [|apply IH].
    destruct (wins _ _ _ _); [apply grows_insert | apply grows_refl].
Qed.

Lemma adopt_loop_length g c cur idxs h s :
  length (fst (adopt_loop g c cur idxs h s)) = length h.
Proof. symmetry. apply grows_length, adopt_loop_grows. Qed.

(** Which entries are true after the loop: those that were, and the agents
    of [idxs] whose draw, the one at their position in the iteration, is
    below the probability. *)
Lemma lookup_adopt_loop g c cur idxs :
  forall h s i,
    fst (adopt_loop g c cur idxs h s) !! i = Some true <->
    h !! i = Some true \/
    (i < length h /\
     exists j, idxs !! j = Some i /\ wins g c cur (s + j) = true).
Proof.
  induction idxs as [|idx idxs IH]; intros h s i.
  - simpl. split; [auto|]. intros [H | [_ (j & Hj & _)]]; [exact H|].
    discriminate.
  - rewrite adopt_loop_cons, IH. clear IH.
    destruct (wins g c cur s) eqn:Ew.
    + rewrite lookup_insert_true, length_insert. split.
      * intros [[H | [-> Hlt]] | [Hlt (j & Hj & Hw)]]; auto.
        -- right. split; [exact Hlt|]. exists 0.
           rewrite Nat.add_0_r. auto.
        -- right. split; [exact Hlt|]. exists (S j).
           rewrite Nat.add_succ_r. auto.
      * intros [H | [Hlt ([|j] & Hj & Hw)]]; auto.
        -- injection Hj as ->. auto.
        -- right. split; [exact Hlt|]. exists j.
           rewrite Nat.add_succ_r in Hw. auto.
    + split.
      * intros [H | [Hlt (j & Hj & Hw)]]; auto.
        right. split; [exact Hlt|]. exists (S j).
        rewrite Nat.add_succ_r. auto.
      * intros [H | [Hlt ([|j] & Hj & Hw)]]; auto.
        -- rewrite Nat.add_0_r in Hw. congruence.
        -- right. split; [exact Hlt|]. exists j.
           rewrite Nat.add_succ_r in Hw. auto.
Qed.

(** ** One period *)

Lemma step_can_afford g c st : can_afford (step g c st) = can_afford st.
Proof. unfold step. destruct (adopt_loop _ _ _ _ _ _). reflexivity. Qed.

Lemma step_timeline g c st :
  adoption_timeline (step g c st) =
  adoption_timeline st ++ [np_sum (has_adopted st)].
Proof. unfold step. destruct (adopt_loop _ _ _ _ _ _). reflexivity. Qed.

Lemma step_has_adopted g c st :
  has_adopted (step g c st) =
  fst (adopt_loop g c (np_sum (has_adopted st))
         (np_where (andn (has_adopted st) (can_afford st)))
         (has_adopted st) (rng st)).
Proof. unfold step. destruct (adopt_loop _ _ _ _ _ _). reflexivity. Qed.

Lemma step_grows g c st : grows (has_adopted st) (has_adopted (step g c st)).
Proof. rewrite step_has_adopted. apply adopt_loop_grows. Qed.

Lemma step_affordable g c st :
  adopters_affordable st -> adopters_affordable (step g c st).
Proof.
  intros Hinv i. rewrite step_can_afford, step_has_adopted, lookup_adopt_loop.
  intros [H | [_ (j & Hj & _)]]; [apply Hinv; exact H|].
  assert (Hi : i ∈ np_where (andn (has_adopted st) (can_afford st))).
  { apply list_elem_of_lookup. eauto. }
  apply elem_of_np_where, lookup_andn in Hi. tauto.
Qed.

(** The state in the middle of a period, after the first [k] potential
    adopters have been visited, is the loop run on that prefix. *)
Lemma adopt_loop_app g c cur l1 l2 :
  forall h s,
    adopt_loop g c cur (l1 ++ l2) h s =
    adopt_loop g c cur l2 (fst (adopt_loop g c cur l1 h s))
      (snd (adopt_loop g c cur l1 h s)).
Proof.
  induction l1 as [|idx l1 IH]; intros h s; [reflexivity|].
  rewrite <- app_comm_cons, !adopt_loop_cons. apply IH.
Qed.

Lemma mid_period_affordable g c st k i :
  adopters_affordable st ->
  fst (adopt_loop g c (np_sum (has_adopted st))
         (take k (np_where (andn (has_adopted st) (can_afford st))))
         (has_adopted st) (rng st)) !! i = Some true ->
  can_afford st !! i = Some true.
Proof.
  intros Hinv. rewrite lookup_adopt_loop.
  intros [H | [_ (j & Hj & _)]]; [apply Hinv; exact H|].
  apply lookup_take_Some in Hj as [Hj _].
  assert (Hi : i ∈ np_where (andn (has_adopted st) (can_afford st))).
  { apply list_elem_of_lookup. eauto. }
  apply elem_of_np_where, lookup_andn in Hi. tauto.
Qed.

(** With nobody left to adopt, a period changes no adoption flag. *)
Lemma step_saturated g c st :
  np_where (andn (has_adopted st) (can_afford st)) = [] ->
  has_adopted (step g c st) = has_adopted st.
Proof. intros H. rewrite step_has_adopted, H. reflexivity. Qed.

(** ** The loop over the periods *)

Lemma loop_snoc g c n : forall st, loop g c (S n) st = step g c (loop g c n st).
Proof.
  induction n as [|n IH]; intros st; [reflexivity|].
  change (loop g c (S (S n)) st) with (loop g c (S n) (step g c st)).
  rewrite IH. reflexivity.
Qed.

Lemma loop_can_afford g c n st : can_afford (loop g c n st) = can_afford st.
Proof.
  induction n as [|n IH]; [reflexivity|].
  rewrite loop_snoc, step_can_afford. exact IH.
Qed.

Lemma loop_grows g c n m st :
  n <= m -> grows (has_adopted (loop g c n st)) (has_adopted (loop g c m st)).
Proof.
  induction 1 as [|m Hle IH]; [apply grows_refl|].
  rewrite (loop_snoc g c m). eapply grows_trans; [exact IH | apply step_grows].
Qed.

Lemma loop_affordable g c n st :
  adopters_affordable st -> adopters_affordable (loop g c n st).
Proof.
  intros H. induction n as [|n IH]; [exact H|].
  rewrite loop_snoc. apply step_affordable. exact IH.
Qed.

(** The timeline after [n] periods: one snapshot per period, taken on the
    state the period started from. *)
Lemma loop_timeline g c n st :
  adoption_timeline (loop g c n st) =
  adoption_timeline st ++
    ((fun t => np_sum (has_adopted (loop g c t st))) <$> seq 0 n).
Proof.
  induction n as [|n IH].
  - simpl. rewrite app_nil_r. reflexivity.
  - rewrite loop_snoc, step_timeline, IH, seq_S, fmap_app, app_assoc.
    reflexivity.
Qed.

Lemma loop_saturated g c st n :
  np_where (andn (has_adopted st) (can_afford st)) = [] ->
  has_adopted (loop g c n st) = has_adopted st.
Proof.
  intros H. induction n as [|n IH]; [reflexivity|].
  rewrite loop_snoc, step_saturated; [exact IH|].
  rewrite IH, loop_can_afford. exact H.
Qed.

Lemma loop_add g c n m st : loop g c (n + m) st = loop g c m (loop g c n st).
Proof.
  revert st. induction n as [|n IH]; intros st; [reflexivity|].
  simpl. apply IH.
Qed.

(** ** Initialisation *)

Lemma shape_of_positive_gini (x : Q) :
  (0 < x)%Q -> Qeq_bool x 0 = false /\ Qle_bool (1 / x) 0 = false.
Proof.
  destruct x as [[|n|n] d]; unfold Qlt; simpl; intros H; try lia.
  split; reflexivity.
Qed.

Lemma shape_of_negative_gini (x : Q) :
  (x < 0)%Q -> Qeq_bool x 0 = false /\ Qle_bool (1 / x) 0 = true.
Proof.
  destruct x as [[|n|n] d]; unfold Qlt; simpl; intros H; try lia.
  split; reflexivity.
Qed.

Lemma shape_of_zero_gini (x : Q) : (x == 0)%Q -> Qeq_bool x 0 = true.
Proof. apply Qeq_bool_iff. Qed.

Lemma length_market g c :
  length (market g c) = Z.to_nat (population_size c).
Proof. unfold market. rewrite length_fmap, length_seq. reflexivity. Qed.

Lemma addressable_le_population g c :
  (addressable g c <= Z.of_nat (Z.to_nat (population_size c)))%Z.
Proof.
  unfold addressable. rewrite <- (length_market g c). apply np_sum_le_length.
Qed.

Lemma initial_count_ge_10 (n : Z) : (10 <= initial_count n)%Z.
Proof. unfold initial_count. lia. Qed.

(** The mask computed by lines 33 and 36 is [market]. *)
Lemma mask_is_market g c :
  (fun x => Qle_bool (income_threshold c) x) <$>
    ((fun x => (x * 20000)%Q) <$>
      (variate g (1 / gini c)%Q <$> seq 0 (Z.to_nat (population_size c))))
  = market g c.
Proof.
  unfold market. induction (seq 0 (Z.to_nat (population_size c))) as [|n l IH].
  - reflexivity.
  - rewrite !fmap_cons, IH. reflexivity.
Qed.

(** What initialisation establishes when the market can seed the run. *)
Lemma init_ok g c :
  (0 < gini c)%Q ->
  (initial_count (population_size c) <= addressable g c)%Z ->
  exists st,
    init g c = inr st /\
    can_afford st = market g c /\
    adoption_timeline st = [] /\
    has_adopted st = set_true (initial_adopters st) (np_zeros (population_size c)) /\
    NoDup (initial_adopters st) /\
    Z.of_nat (length (initial_adopters st)) = initial_count (population_size c) /\
    (forall i, i ∈ initial_adopters st -> market g c !! i = Some true).
Proof.
  intros Hg Hm.
  destruct (shape_of_positive_gini _ Hg) as [Hz Hshape].
  pose proof (initial_count_ge_10 (population_size c)) as Hk.
  pose proof (addressable_le_population g c) as Hle.
  assert (Hn : (population_size c <? 0)%Z = false) by lia.
  unfold init, pareto. rewrite Hz, Hshape, Hn. unfold seed.
  rewrite mask_is_market. unfold choice.
  pose proof (length_where_from 0 (market g c)) as Hlen.
  fold (np_where (market g c)) in Hlen. fold (addressable g c) in Hlen.
  assert (Hne : (length (np_where (market g c)) =? 0) = false).
  { apply Nat.eqb_neq. lia. }
  assert (Hge : (Z.of_nat (length (np_where (market g c)))
                   <? initial_count (population_size c))%Z = false) by lia.
  rewrite Hne, Hge. simpl andb. cbv iota.
  destruct (sample g (np_where (market g c))
              (Z.to_nat (initial_count (population_size c)))
              (0 + Z.to_nat (population_size c))) as [ia s'] eqn:Es.
  eexists. split; [reflexivity|]. simpl.
  assert (Hia : ia = fst (sample g (np_where (market g c))
              (Z.to_nat (initial_count (population_size c)))
              (0 + Z.to_nat (population_size c)))) by (rewrite Es; reflexivity).
  repeat split.
  - rewrite Hia. apply sample_NoDup, NoDup_where_from.
  - rewrite Hia, sample_length; lia.
  - intros i Hi. rewrite Hia in Hi. apply sample_elem_of in Hi.
    apply elem_of_np_where. exact Hi.
Qed.

Lemma init_adopted_count g c st :
  (0 < gini c)%Q ->
  (initial_count (population_size c) <= addressable g c)%Z ->
  init g c = inr st ->
  np_sum (has_adopted st) = initial_count (population_size c) /\
  length (has_adopted st) = Z.to_nat (population_size c) /\
  adopters_affordable st.
Proof.
  intros Hg Hm Hst.
  destruct (init_ok g c Hg Hm) as (st' & Hst' & Hca & _ & Hh & Hnd & Hlen & Hin).
  rewrite Hst in Hst'. injection Hst' as <-.
  assert (Hfalse : forall i, i ∈ initial_adopters st ->
                     np_zeros (population_size c) !! i = Some false).
  { intros i Hi. apply lookup_replicate_2.
    apply Hin, lookup_lt_Some in Hi. rewrite length_market in Hi. exact Hi. }
  repeat split.
  - rewrite Hh, np_sum_set_true by assumption.
    unfold np_zeros. rewrite np_sum_replicate_false. lia.
  - rewrite Hh, length_set_true. apply length_replicate.
  - intros i. rewrite Hh, Hca, lookup_set_true.
    intros [H | [Hi _]]; [|apply Hin; exact Hi].
    apply lookup_replicate in H as [H _]. discriminate.
Qed.

(** The three ways initialisation fails. *)
Lemma init_zero_gini g c :
  (gini c == 0)%Q -> init g c = inl ZeroDivisionError.
Proof.
  intros H. unfold init. rewrite (shape_of_zero_gini _ H). reflexivity.
Qed.

Lemma init_pareto_rejects g c :
  (gini c < 0)%Q \/ ((0 < gini c)%Q /\ (population_size c < 0)%Z) ->
  init g c = inl (ValueError Pareto).
Proof.
  unfold init, pareto. intros [H | [H Hn]].
  - destruct (shape_of_negative_gini _ H) as [-> ->]. reflexivity.
  - destruct (shape_of_positive_gini _ H) as [-> ->].
    assert ((population_size c <? 0)%Z = true) as -> by lia. reflexivity.
Qed.

Lemma init_choice_rejects g c :
  (0 < gini c)%Q -> (0 <= population_size c)%Z ->
  (addressable g c < initial_count (population_size c))%Z ->
  init g c = inl (ValueError Choice).
Proof.
  intros Hg Hn Hm.
  destruct (shape_of_positive_gini _ Hg) as [Hz Hshape].
  assert (Hn' : (population_size c <? 0)%Z = false) by lia.
  unfold init, pareto. rewrite Hz, Hshape, Hn'. unfold seed.
  rewrite mask_is_market. unfold choice.
  pose proof (length_where_from 0 (market g c)) as Hlen.
  fold (np_where (market g c)) in Hlen. fold (addressable g c) in Hlen.
  destruct (_ && _); [reflexivity|].
  assert ((Z.of_nat (length (np_where (market g c)))
            <? initial_count (population_size c))%Z = true) as -> by lia.
  reflexivity.
Qed.

(** ** Runs of valid configurations *)

Lemma valid_init g c :
  valid g c ->
  exists st0,
    init g c = inr st0 /\
    can_afford st0 = market g c /\
    adoption_timeline st0 = [] /\
    np_sum (has_adopted st0) = initial_count (population_size c) /\
    length (has_adopted st0) = Z.to_nat (population_size c) /\
    adopters_affordable st0.
Proof.
  intros [_ Hg _ _ _ _ Hm].
  destruct (init_ok g c Hg Hm) as (st0 & Hst0 & Hca & Htl & _).
  destruct (init_adopted_count g c st0 Hg Hm Hst0) as (Hsum & Hlen & Haff).
  exists st0. auto 10.
Qed.

Lemma state_after_init g c st0 t :
  init g c = inr st0 -> state_after g c t = inr (loop g c t st0).
Proof. intros H. unfold state_after. rewrite H. reflexivity. Qed.

Lemma simulate_init g c st0 :
  init g c = inr st0 ->
  simulate g c = inr (loop g c (Z.to_nat (time_periods c)) st0).
Proof. intros H. unfold simulate. rewrite H. reflexivity. Qed.

Lemma lookup_loop_timeline g c n st0 t :
  adoption_timeline st0 = [] -> t < n ->
  adoption_timeline (loop g c n st0) !! t =
  Some (np_sum (has_adopted (loop g c t st0))).
Proof.
  intros Hnil Ht. rewrite loop_timeline, Hnil, app_nil_l, list_lookup_fmap.
  rewrite lookup_seq_lt by exact Ht. reflexivity.
Qed.

Lemma length_loop_timeline g c n st0 :
  adoption_timeline st0 = [] -> length (adoption_timeline (loop g c n st0)) = n.
Proof.
  intros Hnil. rewrite loop_timeline, Hnil, app_nil_l, length_fmap.
  apply length_seq.
Qed.

(** C1. For every valid configuration the run returns; its timeline has
    exactly [time_periods] entries; entry [t] is the adopted-count of the
    state the run is in after [t] periods, that is before the updates of
    period [t]; after [t] periods the timeline has [t] entries, so the loop
    body ran once per period up to the horizon; and once nobody is left to
    adopt the remaining periods still append the unchanged count. *)
Theorem timeline_records_every_period (g : BitGenerator) (c : Config) :
  valid g c ->
  exists fin,
    simulate g c = inr fin /\
    state_after g c (Z.to_nat (time_periods c)) = inr fin /\
    length (adoption_timeline fin) = Z.to_nat (time_periods c) /\
    (forall t, t < Z.to_nat (time_periods c) ->
       exists st, state_after g c t = inr st /\
         length (adoption_timeline st) = t /\
         adoption_timeline fin !! t = Some (np_sum (has_adopted st))) /\
    (forall t st,
       state_after g c t = inr st ->
       np_where (andn (has_adopted st) (can_afford st)) = [] ->
       forall t', t <= t' < Z.to_nat (time_periods c) ->
         adoption_timeline fin !! t' = Some (np_sum (has_adopted st))).
Proof.
  intros Hv. destruct (valid_init g c Hv) as (st0 & Hinit & _ & Hnil & _).
  exists (loop g c (Z.to_nat (time_periods c)) st0).
  split; [apply simulate_init; exact Hinit|].
  split; [apply state_after_init; exact Hinit|].
  split; [apply length_loop_timeline; exact Hnil|].
  split.
  - intros t Ht. exists (loop g c t st0).
    split; [apply state_after_init; exact Hinit|].
    split; [apply length_loop_timeline; exact Hnil|].
    apply lookup_loop_timeline; assumption.
  - intros t st Hst Hsat t' [Hle Hlt].
    rewrite (state_after_init g c st0 t Hinit) in Hst. injection Hst as <-.
    rewrite lookup_loop_timeline by assumption.
    replace t' with (t + (t' - t)) by lia.
    rewrite loop_add, loop_saturated by exact Hsat. reflexivity.
Qed.

(** C2. For every valid configuration, after initialisation ([t = 0]) and
    after each of the periods, the affordability mask is the one computed at
    the start and every adopted agent is affordable; the same holds in the
    middle of the next period, after any number [k] of its potential
    adopters have been visited. *)
Theorem adopted_implies_affordable (g : BitGenerator) (c : Config) :
  valid g c ->
  forall t, t <= Z.to_nat (time_periods c) ->
    exists st,
      state_after g c t = inr st /\
      can_afford st = market g c /\
      (forall i, has_adopted st !! i = Some true ->
                 can_afford st !! i = Some true) /\
      (forall k i,
         fst (adopt_loop g c (np_sum (has_adopted st))
                (take k (np_where (andn (has_adopted st) (can_afford st))))
                (has_adopted st) (rng st)) !! i = Some true ->
         can_afford st !! i = Some true).
Proof.
  intros Hv t _. destruct (valid_init g c Hv) as (st0 & Hinit & Hca & _ & _ & _ & Haff).
  exists (loop g c t st0).
  split; [apply state_after_init; exact Hinit|].
  split; [rewrite loop_can_afford; exact Hca|].
  pose proof (loop_affordable g c t st0 Haff) as Hinv.
  split; [exact Hinv|].
  intros k i. apply mid_period_affordable. exact Hinv.
Qed.

(** C3. For every valid configuration, an agent adopted after [t] periods
    is adopted after every later number of periods, and consecutive timeline
    entries never decrease. *)
Theorem adoption_is_monotone (g : BitGenerator) (c : Config) :
  valid g c ->
  exists fin,
    simulate g c = inr fin /\
    (forall t t' st st' i,
       t <= t' ->
       state_after g c t = inr st -> state_after g c t' = inr st' ->
       has_adopted st !! i = Some true -> has_adopted st' !! i = Some true) /\
    (forall t, S t < Z.to_nat (time_periods c) ->
       exists x y,
         adoption_timeline fin !! t = Some x /\
         adoption_timeline fin !! S t = Some y /\
         (x <= y)%Z).
Proof.
  intros Hv. destruct (valid_init g c Hv) as (st0 & Hinit & _ & Hnil & _).
  exists (loop g c (Z.to_nat (time_periods c)) st0).
  split; [apply simulate_init; exact Hinit|]. split.
  - intros t t' st st' i Hle Hst Hst'.
    rewrite (state_after_init g c st0 t Hinit) in Hst.
    rewrite (state_after_init g c st0 t' Hinit) in Hst'.
    injection Hst as <-. injection Hst' as <-.
    apply grows_lookup, loop_grows. exact Hle.
  - intros t Ht.
    exists (np_sum (has_adopted (loop g c t st0))),
           (np_sum (has_adopted (loop g c (S t) st0))).
    split; [apply lookup_loop_timeline; [exact Hnil | lia]|].
    split; [apply lookup_loop_timeline; [exact Hnil | lia]|].
    apply grows_sum, loop_grows. lia.
Qed.

(** ** The update of one period *)

(** When the draw of each agent is a function of the agent, the loop adopts
    exactly the eligible agents whose draw is below the probability. *)
Lemma lookup_adopt_loop_keyed g c cur (draw : nat -> Q) idxs h s i :
  (forall j a, idxs !! j = Some a -> fst (rand g (s + j)) = draw a) ->
  fst (adopt_loop g c cur idxs h s) !! i = Some true <->
  h !! i = Some true \/
  (i < length h /\ i ∈ idxs /\
   b64_ltb (b64_of_unit (draw i)) (prob_adopt c cur) = true).
Proof.
  intros Hkey. rewrite lookup_adopt_loop. unfold wins. split.
  - intros [H | [Hlt (j & Hj & Hw)]]; [auto|].
    right. split; [exact Hlt|]. split.
    + apply list_elem_of_lookup. eauto.
    + rewrite <- (Hkey j i Hj). exact Hw.
  - intros [H | [Hlt [Hin Hw]]]; [auto|].
    right. split; [exact Hlt|].
    apply list_elem_of_lookup in Hin as [j Hj]. exists j.
    split; [exact Hj|]. rewrite (Hkey j i Hj). exact Hw.
Qed.


(** C9. Every draw of a period is compared with the probability computed
    from the count taken at the start of the period, so the outcome does not
    depend on the order of the visit: when each agent's draw is keyed to the
    agent ([draw]), visiting the eligible agents in any permuted [order],
    with any generator and cursor that deliver those draws, ends in the same
    adoption state as the period of the program. *)
Theorem period_is_order_independent
    (g g' : BitGenerator) (c : Config) (st : State) (draw : nat -> Q)
    (order : list nat) (s' : nat) :
  order ≡ₚ np_where (andn (has_adopted st) (can_afford st)) ->
  (forall j a, np_where (andn (has_adopted st) (can_afford st)) !! j = Some a ->
               fst (rand g (rng st + j)) = draw a) ->
  (forall j a, order !! j = Some a -> fst (rand g' (s' + j)) = draw a) ->
  fst (adopt_loop g' c (np_sum (has_adopted st)) order (has_adopted st) s')
  = has_adopted (step g c st).
Proof.
  intros Hperm Hkey Hkey'. rewrite step_has_adopted.
  apply bool_list_ext.
  - rewrite !adopt_loop_length. reflexivity.
  - intros i.
    rewrite (lookup_adopt_loop_keyed g' c _ draw order _ _ i Hkey').
    rewrite (lookup_adopt_loop_keyed g c _ draw _ _ _ i Hkey).
    rewrite Hperm. reflexivity.
Qed.

(** ** The metrics *)

(** C6. The penetration is [final_adopters / addressable * 100] when the
    addressable market is positive and 0 when it is empty, and its
    evaluation never divides by zero. *)
Theorem market_penetration_guarded (final total : Z) :
  ((0 < total)%Z ->
     market_penetration final total
     = Some (inject_Z final / inject_Z total * 100)%Q) /\
  (total = 0%Z -> market_penetration final total = Some 0%Q) /\
  market_penetration final total <> None.
Proof.
  unfold market_penetration, true_divide.
  destruct (total >? 0)%Z eqn:Egt.
  - assert ((total =? 0)%Z = false) as -> by lia.
    repeat split; [lia | discriminate].
  - repeat split; [lia | discriminate].
Qed.

(** ** Failing runs *)

Lemma init_fails_everywhere g c e :
  init g c = inl e ->
  simulate g c = inl e /\ run g c = inl e /\
  forall t, state_after g c t = inl e.
Proof.
  intros H. unfold run, simulate, state_after. rewrite H. auto.
Qed.

Lemma init_timeline g c st0 :
  init g c = inr st0 -> adoption_timeline st0 = [].
Proof.
  unfold init. destruct (Qeq_bool _ _); [discriminate|].
  destruct (pareto _ _ _ _) as [e|[raw s]]; [discriminate|].
  destruct (choice _ _ _ _) as [e|[ia s']]; [discriminate|].
  intros [= <-]. reflexivity.
Qed.

Lemma run_inv g c st r :
  run g c = inr (st, r) ->
  exists st0,
    init g c = inr st0 /\
    st = loop g c (Z.to_nat (time_periods c)) st0 /\
    report st = inr r.
Proof.
  unfold run, simulate. destruct (init g c) as [e|st0]; [discriminate|].
  destruct (report _) as [e|r'] eqn:Er; [discriminate|].
  intros [= <- <-]. exists st0. auto.
Qed.

(** C4, as the program has it. When the income sample can be drawn and the
    addressable market is smaller than [max(10, N // 100)], the run ends
    with the [ValueError] that [np.random.choice] raises on line 38: the
    program has no check of its own. The assignment of line 39 and the loop
    are not reached, so there is no state after any number of periods. *)
Theorem insufficient_market_raises_in_choice (g : BitGenerator) (c : Config) :
  (0 < gini c)%Q ->
  (0 <= population_size c)%Z ->
  (addressable g c < initial_count (population_size c))%Z ->
  simulate g c = inl (ValueError Choice) /\
  run g c = inl (ValueError Choice) /\
  forall t, state_after g c t = inl (ValueError Choice).
Proof.
  intros Hg Hn Hm. apply init_fails_everywhere, init_choice_rejects; assumption.
Qed.

(** C5, as the program has it. With a population size or a gini that is
    not positive the run ends with an exception of the interpreter or of
    numpy, and no state after any number of periods exists:
    [ZeroDivisionError] from [1/gini] when gini is zero, the [ValueError] of
    [np.random.pareto] when gini or the size is negative, and the
    [ValueError] of [np.random.choice] for an empty population. *)
Theorem nonpositive_population_or_gini_raises (g : BitGenerator) (c : Config) :
  (population_size c <= 0)%Z \/ (gini c <= 0)%Q ->
  exists e,
    e = (if Qeq_bool (gini c) 0 then ZeroDivisionError
         else if Qle_bool (gini c) 0 || (population_size c <? 0)%Z
              then ValueError Pareto
              else ValueError Choice) /\
    simulate g c = inl e /\
    run g c = inl e /\
    forall t, state_after g c t = inl e.
Proof.
  intros H. eexists. split; [reflexivity|]. apply init_fails_everywhere.
  destruct (Qeq_bool (gini c) 0) eqn:Ez.
  - apply init_zero_gini, Qeq_bool_iff. exact Ez.
  - destruct (Qle_bool (gini c) 0) eqn:Ele; simpl orb.
    + apply init_pareto_rejects. left.
      apply Qle_bool_iff, Qle_lteq in Ele as [Hlt | Heq]; [exact Hlt|].
      apply Qeq_bool_iff in Heq. congruence.
    + assert (Hpos : (0 < gini c)%Q).
      { apply Qnot_le_lt. intros Hle. apply Qle_bool_iff in Hle. congruence. }
      destruct H as [Hn | Hle];
        [| exfalso; exact (Qlt_not_le _ _ Hpos Hle)].
      destruct (population_size c <? 0)%Z eqn:En.
      * apply init_pareto_rejects. right. split; [exact Hpos | lia].
      * apply init_choice_rejects; [exact Hpos | lia |].
        pose proof (addressable_le_population g c).
        pose proof (initial_count_ge_10 (population_size c)). lia.
Qed.

(** C7, as the program has it. For every valid configuration with a single
    period the timeline is the one entry [max(10, N // 100)], the count of
    the initial adopters. The period's updates are applied all the same: the
    final state is the initial state after one [step], in which the initial
    adopters are still adopted. *)
Theorem single_period_timeline (g : BitGenerator) (c : Config) :
  valid g c ->
  time_periods c = 1%Z ->
  exists st0 fin,
    init g c = inr st0 /\
    simulate g c = inr fin /\
    adoption_timeline fin = [initial_count (population_size c)] /\
    fin = step g c st0 /\
    grows (has_adopted st0) (has_adopted fin).
Proof.
  intros Hv HT. destruct (valid_init g c Hv) as (st0 & Hinit & _ & Hnil & Hsum & _).
  exists st0, (step g c st0).
  split; [exact Hinit|].
  split; [rewrite (simulate_init g c st0 Hinit), HT; reflexivity|].
  split; [rewrite step_timeline, Hnil, Hsum; reflexivity|].
  split; [reflexivity | apply step_grows].
Qed.

(** The run of a valid configuration returns its final state and report. *)
Lemma run_ok g c : valid g c -> exists st r, run g c = inr (st, r).
Proof.
  intros Hv. destruct (valid_init g c Hv) as (st0 & Hinit & _ & Hnil & _).
  destruct Hv as [_ _ _ _ _ HT _].
  unfold run. rewrite (simulate_init g c st0 Hinit).
  destruct (Z.to_nat (time_periods c)) as [|n] eqn:En; [lia|].
  unfold report. rewrite loop_snoc, step_timeline, last_snoc.
  eexists _, _. reflexivity.
Qed.

(** C10. Every valid configuration has a run that returns. The
    final-adopter metric of a run that returns is the last snapshot: the
    adopted-count of the state before the last period, which is at most the
    count of the final state; the penetration is computed from it. For some
    run it is strictly below the count of the final state. *)
Theorem final_adopters_is_last_snapshot :
  (forall g c, valid g c -> exists st r, run g c = inr (st, r)) /\
  (forall g c st r,
     run g c = inr (st, r) ->
     exists prev,
       state_after g c (Z.to_nat (time_periods c) - 1) = inr prev /\
       st = step g c prev /\
       final_adopters r = np_sum (has_adopted prev) /\
       (final_adopters r <= np_sum (has_adopted st))%Z /\
       penetration r
       = market_penetration (final_adopters r) (np_sum (can_afford st))) /\
  (exists g c st r,
     run g c = inr (st, r) /\
     (final_adopters r < np_sum (has_adopted st))%Z).
Proof.
  split; [exact run_ok|]. split.
  - intros g c st r Hrun.
    destruct (run_inv g c st r Hrun) as (st0 & Hinit & -> & Hrep).
    destruct (Z.to_nat (time_periods c)) as [|n] eqn:En.
    + simpl in Hrep. unfold report in Hrep.
      rewrite (init_timeline g c st0 Hinit) in Hrep. discriminate.
    + exists (loop g c n st0).
      replace (S n - 1) with n by lia.
      split; [apply state_after_init; exact Hinit|].
      split; [apply loop_snoc|].
      rewrite loop_snoc in Hrep |- *. unfold report in Hrep.
      rewrite step_timeline, last_snoc in Hrep. injection Hrep as <-.
      simpl. split; [reflexivity|].
      split; [apply grows_sum, step_grows | reflexivity].
  - exists gen_rich, cfg_single. eexists _, _.
    split; [vm_compute; reflexivity | vm_compute; reflexivity].
Qed.

(** * Concrete instances *)

Ltac by_computation := vm_compute; first [reflexivity | discriminate].

Lemma timeline_records_every_period_witness :
  valid gen_rich cfg_three /\
  exists fin,
    simulate gen_rich cfg_three = inr fin /\
    length (adoption_timeline fin) = 3.
Proof.
  assert (Hv : valid gen_rich cfg_three) by (constructor; by_computation).
  split; [exact Hv|].
  destruct (timeline_records_every_period gen_rich cfg_three Hv)
    as (fin & Hsim & _ & Hlen & _).
  exists fin. split; [exact Hsim | exact Hlen].
Defined.

Lemma adopted_implies_affordable_witness :
  valid gen_rich cfg_three /\
  exists st,
    state_after gen_rich cfg_three 2 = inr st /\
    forall i, has_adopted st !! i = Some true -> can_afford st !! i = Some true.
Proof.
  assert (Hv : valid gen_rich cfg_three) by (constructor; by_computation).
  split; [exact Hv|].
  destruct (adopted_implies_affordable gen_rich cfg_three Hv 2)
    as (st & Hst & _ & Hinv & _); [vm_compute; lia|].
  exists st. split; [exact Hst | exact Hinv].
Defined.

Lemma adoption_is_monotone_witness :
  valid gen_rich cfg_three /\
  exists fin x y,
    simulate gen_rich cfg_three = inr fin /\
    adoption_timeline fin !! 0 = Some x /\
    adoption_timeline fin !! 1 = Some y /\
    (x <= y)%Z.
Proof.
  assert (Hv : valid gen_rich cfg_three) by (constructor; by_computation).
  split; [exact Hv|].
  destruct (adoption_is_monotone gen_rich cfg_three Hv) as (fin & Hsim & _ & Hmono).
  destruct (Hmono 0) as (x & y & Hx & Hy & Hle); [vm_compute; lia|].
  exists fin, x, y. auto.
Defined.

(** C4, as stated, fails on the scenario N=100, gini=0.2, threshold=30000
    with five affordable agents: the run ends with the [ValueError] of
    [np.random.choice], not with [InsufficientMarket]. *)
Lemma insufficient_market_counterexample :
  (addressable gen_poor cfg_scenario
   < initial_count (population_size cfg_scenario))%Z /\
  run gen_poor cfg_scenario = inl (ValueError Choice) /\
  run gen_poor cfg_scenario <> inl InsufficientMarket.
Proof. repeat split; by_computation. Qed.

Lemma insufficient_market_raises_in_choice_witness :
  run gen_poor cfg_scenario = inl (ValueError Choice).
Proof.
  apply (insufficient_market_raises_in_choice gen_poor cfg_scenario);
    by_computation.
Defined.

(** C5, as stated, fails on an empty population and on a zero gini: the
    runs end with the [ValueError] of [np.random.choice] and with
    [ZeroDivisionError], not with [InvalidParameter]. *)
Lemma nonpositive_input_counterexample :
  (population_size cfg_empty <= 0)%Z /\
  run gen_rich cfg_empty = inl (ValueError Choice) /\
  run gen_rich cfg_empty <> inl InvalidParameter /\
  (gini cfg_gini0 <= 0)%Q /\
  run gen_rich cfg_gini0 = inl ZeroDivisionError /\
  run gen_rich cfg_gini0 <> inl InvalidParameter.
Proof. repeat split; by_computation. Qed.

Lemma nonpositive_population_or_gini_raises_witness :
  exists e,
    e = ValueError Choice /\
    simulate gen_rich cfg_empty = inl e /\
    run gen_rich cfg_empty = inl e /\
    forall t, state_after gen_rich cfg_empty t = inl e.
Proof.
  apply (nonpositive_population_or_gini_raises gen_rich cfg_empty).
  left. by_computation.
Defined.

Lemma market_penetration_guarded_witness :
  market_penetration 15 20 = Some (inject_Z 15 / inject_Z 20 * 100)%Q /\
  market_penetration 15 0 = Some 0%Q.
Proof.
  split.
  - apply (proj1 (market_penetration_guarded 15 20)). reflexivity.
  - apply (proj1 (proj2 (market_penetration_guarded 15 0))). reflexivity.
Defined.

(** C7, as stated, fails on twenty affordable agents and one period: the
    timeline is the single entry 10, yet the period's updates are applied
    and the final state has twenty adopters where the initial one has
    ten. *)
Lemma single_period_counterexample :
  valid gen_rich cfg_single /\
  time_periods cfg_single = 1%Z /\
  exists st0 fin,
    init gen_rich cfg_single = inr st0 /\
    simulate gen_rich cfg_single = inr fin /\
    adoption_timeline fin = [10%Z] /\
    np_sum (has_adopted st0) = 10%Z /\
    np_sum (has_adopted fin) = 20%Z /\
    has_adopted fin <> has_adopted st0.
Proof.
  split; [constructor; by_computation|].
  split; [reflexivity|].
  eexists _, _.
  split; [vm_compute; reflexivity|].
  split; [vm_compute; reflexivity|].
  repeat split; by_computation.
Qed.

Lemma single_period_timeline_witness :
  valid gen_rich cfg_single /\
  exists st0 fin,
    init gen_rich cfg_single = inr st0 /\
    simulate gen_rich cfg_single = inr fin /\
    adoption_timeline fin = [initial_count (population_size cfg_single)] /\
    fin = step gen_rich cfg_single st0 /\
    grows (has_adopted st0) (has_adopted fin).
Proof.
  assert (Hv : valid gen_rich cfg_single) by (constructor; by_computation).
  split; [exact Hv|].
  apply (single_period_timeline gen_rich cfg_single Hv). reflexivity.
Defined.


(** A draw that equals the computed probability loses, although it is
    below the exact value 2/3 of the formula: the timeline stays at 10. *)
Example draw_at_the_computed_probability_loses :
  (fst (rand gen_two_thirds 0) < adoption_probability cfg_thirds 10)%Q /\
  b64_of_unit (fst (rand gen_two_thirds 0)) = prob_adopt cfg_thirds 10 /\
  exists fin,
    simulate gen_two_thirds cfg_thirds = inr fin /\
    adoption_timeline fin = [10; 10]%Z.
Proof.
  split; [by_computation|]. split; [by_computation|].
  eexists. split; [vm_compute; reflexivity | by_computation].
Qed.


Lemma period_is_order_independent_witness :
  fst (adopt_loop gen_rotated cfg_coin (np_sum (has_adopted st_none))
         [2; 0; 1] (has_adopted st_none) 0)
  = has_adopted (step gen_ascending cfg_coin st_none).
Proof.
  apply (period_is_order_independent gen_ascending gen_rotated cfg_coin
           st_none draw_by_agent [2; 0; 1] 0).
  - change ([2; 0; 1] ≡ₚ [0; 1; 2]).
    eapply perm_trans; [apply perm_swap | apply perm_skip, perm_swap].
  - intros [|[|[|j]]] a H; simpl in H; try discriminate;
      injection H as <-; reflexivity.
  - intros [|[|[|j]]] a H; simpl in H; try discriminate;
      injection H as <-; reflexivity.
Defined.

(** The stream of the program is keyed to the position of the visit: the
    same generator visited in another order adopts other agents. *)
Example shared_cursor_is_keyed_to_position :
  fst (adopt_loop gen_ascending cfg_coin 0 [0; 1; 2] [false; false; false] 0)
  = [true; false; true] /\
  fst (adopt_loop gen_ascending cfg_coin 0 [2; 0; 1] [false; false; false] 0)
  = [false; true; true].
Proof. split; reflexivity. Qed.

Lemma final_adopters_is_last_snapshot_witness :
  exists st r prev,
    run gen_rich cfg_single = inr (st, r) /\
    state_after gen_rich cfg_single 0 = inr prev /\
    final_adopters r = np_sum (has_adopted prev) /\
    final_adopters r = 10%Z /\
    np_sum (has_adopted st) = 20%Z.
Proof.
  destruct (run gen_rich cfg_single) as [e|[st r]] eqn:Hrun;
    [vm_compute in Hrun; discriminate|].
  destruct (proj1 (proj2 final_adopters_is_last_snapshot)
              gen_rich cfg_single st r Hrun)
    as (prev & Hprev & _ & Hfa & _).
  exists st, r, prev. split; [reflexivity|].
  split; [exact Hprev|]. split; [exact Hfa|].
  vm_compute in Hrun. injection Hrun as <- <-. split; reflexivity.
Defined.

(** * Further properties of the run *)

(** ** Shapes and counts *)

Lemma loop_length g c n st :
  length (has_adopted (loop g c n st)) = length (has_adopted st).
Proof.
  symmetry. apply grows_length. apply (loop_grows g c 0 n st). lia.
Qed.

Lemma contained_sum_le (a b : list bool) :
  length a = length b ->
  (forall i, a !! i = Some true -> b !! i = Some true) ->
  (np_sum a <= np_sum b)%Z.
Proof.
  revert b. induction a as [|x a IH]; intros [|y b] Hlen H; simpl in *;
    try lia.
  assert (Hrec : (np_sum a <= np_sum b)%Z).
  { apply IH; [lia|]. intros i Hi. exact (H (S i) Hi). }
  destruct x, y; try lia. specialize (H 0 eq_refl). discriminate.
Qed.

(** Affordable agents are either adopted or potential adopters. *)
Lemma np_sum_andn (a b : list bool) :
  length a = length b ->
  (forall i, a !! i = Some true -> b !! i = Some true) ->
  np_sum (andn a b) = (np_sum b - np_sum a)%Z.
Proof.
  revert b. induction a as [|x a IH]; intros [|y b] Hlen H;
    try discriminate; [reflexivity|].
  assert (Hrec : np_sum (andn a b) = (np_sum b - np_sum a)%Z).
  { apply IH; [simpl in Hlen; lia|]. intros i Hi. exact (H (S i) Hi). }
  change (andn (x :: a) (y :: b)) with ((negb x && y) :: andn a b).
  simpl np_sum. rewrite Hrec.
  destruct x, y; simpl; try lia. specialize (H 0 eq_refl). discriminate.
Qed.

Lemma length_potential (st : State) :
  length (has_adopted st) = length (can_afford st) ->
  adopters_affordable st ->
  Z.of_nat (length (potential_adopters_idx st))
  = (np_sum (can_afford st) - np_sum (has_adopted st))%Z.
Proof.
  intros Hlen Hinv. unfold potential_adopters_idx, np_where.
  rewrite length_where_from. apply np_sum_andn; assumption.
Qed.

Lemma step_rng g c st :
  rng (step g c st) = rng st + length (potential_adopters_idx st).
Proof.
  unfold step, potential_adopters_idx.
  pose proof (adopt_loop_cursor g c (np_sum (has_adopted st))
                (np_where (andn (has_adopted st) (can_afford st)))
                (has_adopted st) (rng st)) as H.
  destruct (adopt_loop _ _ _ _ _ _) as [h s]. exact H.
Qed.

Lemma percentage_bounds (a b : Z) :
  (0 <= a <= b)%Z -> (0 < b)%Z ->
  (0 <= inject_Z a / inject_Z b * 100)%Q /\
  (inject_Z a / inject_Z b * 100 <= 100)%Q.
Proof.
  intros Ha Hb. destruct b as [|m|m]; try lia.
  unfold Qle, Qdiv, Qmult, Qinv, inject_Z. simpl. split; nia.
Qed.

(** ** What a successful initialisation says about the inputs *)

Lemma init_inv g c st0 :
  init g c = inr st0 ->
  (0 < gini c)%Q /\
  (initial_count (population_size c) <= addressable g c)%Z.
Proof.
  intros Hinit.
  destruct (Qlt_le_dec 0 (gini c)) as [Hpos | Hle].
  - split; [exact Hpos|].
    destruct (Z_lt_le_dec (population_size c) 0) as [Hn | Hn].
    + rewrite init_pareto_rejects in Hinit by auto. discriminate.
    + destruct (Z_lt_le_dec (addressable g c)
                  (initial_count (population_size c))) as [Hm | Hm];
        [|exact Hm].
      rewrite init_choice_rejects in Hinit by assumption. discriminate.
  - apply Qle_lteq in Hle as [Hlt | Heq].
    + rewrite init_pareto_rejects in Hinit by auto. discriminate.
    + rewrite init_zero_gini in Hinit by exact Heq. discriminate.
Qed.

Lemma init_facts g c st0 :
  init g c = inr st0 ->
  can_afford st0 = market g c /\
  adoption_timeline st0 = [] /\
  np_sum (has_adopted st0) = initial_count (population_size c) /\
  length (has_adopted st0) = length (can_afford st0) /\
  adopters_affordable st0.
Proof.
  intros Hinit. destruct (init_inv g c st0 Hinit) as [Hg Hm].
  destruct (init_ok g c Hg Hm) as (st & Hst & Hca & Htl & _).
  rewrite Hinit in Hst. injection Hst as <-.
  destruct (init_adopted_count g c st0 Hg Hm Hinit) as (Hsum & Hlen & Haff).
  rewrite Hca, length_market. auto 10.
Qed.

(** The invariants of every state a run goes through. *)
Lemma loop_facts g c st0 t :
  init g c = inr st0 ->
  can_afford (loop g c t st0) = market g c /\
  length (has_adopted (loop g c t st0)) = length (can_afford (loop g c t st0)) /\
  adopters_affordable (loop g c t st0) /\
  (initial_count (population_size c) <= np_sum (has_adopted (loop g c t st0)))%Z /\
  (np_sum (has_adopted (loop g c t st0)) <= addressable g c)%Z.
Proof.
  intros Hinit.
  destruct (init_facts g c st0 Hinit) as (Hca & _ & Hsum & Hlen & Haff).
  pose proof (loop_affordable g c t st0 Haff) as Hinv.
  assert (Hlen' : length (has_adopted (loop g c t st0))
                  = length (can_afford (loop g c t st0))).
  { rewrite loop_length, loop_can_afford. exact Hlen. }
  split; [rewrite loop_can_afford; exact Hca|].
  split; [exact Hlen'|]. split; [exact Hinv|]. split.
  - rewrite <- Hsum. apply grows_sum. apply (loop_grows g c 0 t st0). lia.
  - unfold addressable. rewrite <- Hca, <- (loop_can_afford g c t st0).
    apply contained_sum_le; assumption.
Qed.

Lemma simulate_inv g c fin :
  simulate g c = inr fin ->
  exists st0,
    init g c = inr st0 /\ fin = loop g c (Z.to_nat (time_periods c)) st0.
Proof.
  unfold simulate. destruct (init g c) as [e|st0]; [discriminate|].
  intros [= <-]. exists st0. auto.
Qed.

Lemma state_after_inv g c t st :
  state_after g c t = inr st ->
  exists st0, init g c = inr st0 /\ st = loop g c t st0.
Proof.
  unfold state_after. destruct (init g c) as [e|st0]; [discriminate|].
  intros [= <-]. exists st0. auto.
Qed.

(** Every entry of the timeline of a run is the count of a state of the
    run. *)
Lemma timeline_entry g c st0 n t x :
  init g c = inr st0 ->
  adoption_timeline (loop g c n st0) !! t = Some x ->
  t < n /\ x = np_sum (has_adopted (loop g c t st0)).
Proof.
  intros Hinit Hx.
  destruct (init_facts g c st0 Hinit) as (_ & Hnil & _).
  assert (Ht : t < n).
  { apply lookup_lt_Some in Hx.
    rewrite (length_loop_timeline g c n st0 Hnil) in Hx. exact Hx. }
  split; [exact Ht|].
  rewrite (lookup_loop_timeline g c n st0 t Hnil Ht) in Hx. congruence.
Qed.

(** ** The timeline and the market *)

(** X1. The first entry of the timeline of a valid configuration is the
    number of initial adopters, [max(10, N // 100)]. *)
Theorem timeline_starts_at_initial_count (g : BitGenerator) (c : Config) :
  valid g c ->
  exists fin,
    simulate g c = inr fin /\
    adoption_timeline fin !! 0 = Some (initial_count (population_size c)).
Proof.
  intros Hv. destruct (valid_init g c Hv) as (st0 & Hinit & _ & Hnil & Hsum & _).
  destruct Hv as [_ _ _ _ _ HT _].
  exists (loop g c (Z.to_nat (time_periods c)) st0).
  split; [apply simulate_init; exact Hinit|].
  rewrite lookup_loop_timeline by (assumption || lia).
  simpl. rewrite Hsum. reflexivity.
Qed.

Lemma timeline_starts_at_initial_count_witness :
  exists fin,
    simulate gen_rich cfg_three = inr fin /\
    adoption_timeline fin !! 0 = Some 10%Z.
Proof.
  apply (timeline_starts_at_initial_count gen_rich cfg_three).
  constructor; by_computation.
Defined.

(** X2. Every entry of the timeline of a run lies between the number of
    initial adopters and the addressable market, the count of the
    affordability mask that the chart draws as the maximum. *)
Theorem timeline_within_market
    (g : BitGenerator) (c : Config) (fin : State) (t : nat) (x : Z) :
  simulate g c = inr fin ->
  adoption_timeline fin !! t = Some x ->
  (initial_count (population_size c) <= x)%Z /\
  (x <= np_sum (can_afford fin))%Z /\
  np_sum (can_afford fin) = addressable g c.
Proof.
  intros Hsim Hx. destruct (simulate_inv g c fin Hsim) as (st0 & Hinit & ->).
  destruct (timeline_entry g c st0 _ t x Hinit Hx) as [_ ->].
  destruct (loop_facts g c st0 t Hinit) as (_ & _ & _ & Hlo & Hhi).
  destruct (loop_facts g c st0 (Z.to_nat (time_periods c)) Hinit) as (Hca & _).
  rewrite Hca. fold (addressable g c). auto.
Qed.

Lemma timeline_within_market_witness :
  exists fin,
    simulate gen_rich cfg_three = inr fin /\
    (10 <= 20)%Z /\ (20 <= np_sum (can_afford fin))%Z /\
    np_sum (can_afford fin) = addressable gen_rich cfg_three.
Proof.
  destruct (simulate gen_rich cfg_three) as [e|fin] eqn:Hsim;
    [vm_compute in Hsim; discriminate|].
  exists fin. split; [reflexivity|].
  apply (timeline_within_market gen_rich cfg_three fin 1 20 Hsim).
  vm_compute in Hsim. injection Hsim as <-. reflexivity.
Defined.

(** X3. In the report of a run that returns, the final adopters are at most
    the addressable market, which is positive, and the penetration is the
    quotient of line 84, a value between 0 and 100. *)
Theorem penetration_is_a_percentage
    (g : BitGenerator) (c : Config) (st : State) (r : Report) :
  run g c = inr (st, r) ->
  (0 < final_adopters r <= total_addressable_market r)%Z /\
  total_addressable_market r = addressable g c /\
  penetration r
  = Some (inject_Z (final_adopters r)
          / inject_Z (total_addressable_market r) * 100)%Q /\
  (0 <= inject_Z (final_adopters r)
        / inject_Z (total_addressable_market r) * 100)%Q /\
  (inject_Z (final_adopters r)
   / inject_Z (total_addressable_market r) * 100 <= 100)%Q.
Proof.
  intros Hrun. destruct (run_inv g c st r Hrun) as (st0 & Hinit & -> & Hrep).
  set (n := Z.to_nat (time_periods c)) in *.
  unfold report in Hrep.
  destruct (last (adoption_timeline (loop g c n st0))) as [x|] eqn:El;
    [|discriminate].
  injection Hrep as <-. simpl.
  rewrite last_lookup in El.
  destruct (timeline_entry g c st0 n _ x Hinit El) as [_ ->].
  destruct (loop_facts g c st0 (Init.Nat.pred
              (length (adoption_timeline (loop g c n st0)))) Hinit)
    as (_ & _ & _ & Hlo & Hhi).
  destruct (loop_facts g c st0 n Hinit) as (Hca & _).
  pose proof (initial_count_ge_10 (population_size c)) as Hk.
  rewrite Hca. fold (addressable g c).
  split; [lia|]. split; [reflexivity|].
  split.
  - unfold market_penetration, true_divide.
    assert ((addressable g c >? 0)%Z = true) as -> by lia.
    assert ((addressable g c =? 0)%Z = false) as -> by lia.
    reflexivity.
  - apply percentage_bounds; lia.
Qed.

Lemma penetration_is_a_percentage_witness :
  exists st r,
    run gen_rich cfg_three = inr (st, r) /\
    (0 < final_adopters r <= total_addressable_market r)%Z /\
    penetration r
    = Some (inject_Z (final_adopters r)
            / inject_Z (total_addressable_market r) * 100)%Q.
Proof.
  destruct (run gen_rich cfg_three) as [e|[st r]] eqn:Hrun;
    [vm_compute in Hrun; discriminate|].
  destruct (penetration_is_a_percentage gen_rich cfg_three st r Hrun)
    as (Hfa & _ & Hpen & _).
  exists st, r. auto.
Defined.

(** ** When the run returns *)

Lemma run_returns g c :
  (0 < gini c)%Q ->
  (initial_count (population_size c) <= addressable g c)%Z ->
  (0 < time_periods c)%Z ->
  exists st r, run g c = inr (st, r).
Proof.
  intros Hg Hm HT.
  destruct (init_ok g c Hg Hm) as (st0 & Hinit & _).
  unfold run. rewrite (simulate_init g c st0 Hinit).
  destruct (Z.to_nat (time_periods c)) as [|n] eqn:En; [lia|].
  unfold report. rewrite loop_snoc, step_timeline, last_snoc.
  eexists _, _. reflexivity.
Qed.

(** X4. The run returns a final state and a report exactly when gini is
    positive, the addressable market holds at least [max(10, N // 100)]
    agents and there is at least one period. *)
Theorem run_returns_iff (g : BitGenerator) (c : Config) :
  (exists st r, run g c = inr (st, r)) <->
  (0 < gini c)%Q /\
  (initial_count (population_size c) <= addressable g c)%Z /\
  (0 < time_periods c)%Z.
Proof.
  split.
  - intros (st & r & Hrun).
    destruct (run_inv g c st r Hrun) as (st0 & Hinit & -> & Hrep).
    destruct (init_inv g c st0 Hinit) as [Hg Hm].
    split; [exact Hg|]. split; [exact Hm|].
    destruct (Z.to_nat (time_periods c)) as [|n] eqn:En; [|lia].
    unfold report in Hrep. simpl in Hrep.
    rewrite (init_timeline g c st0 Hinit) in Hrep. discriminate.
  - intros (Hg & Hm & HT). apply run_returns; assumption.
Qed.

Lemma run_returns_iff_witness :
  exists st r, run gen_rich cfg_three = inr (st, r).
Proof.
  apply (proj2 (run_returns_iff gen_rich cfg_three)).
  repeat split; by_computation.
Defined.

(** X5. With a number of periods that is not positive the simulation block
    itself completes, with an empty timeline and the adoption state of the
    initialisation, and the run then ends with the [IndexError] of
    [adoption_timeline[-1]] on line 83. *)
Theorem no_period_raises_index_error (g : BitGenerator) (c : Config) :
  (0 < gini c)%Q ->
  (initial_count (population_size c) <= addressable g c)%Z ->
  (time_periods c <= 0)%Z ->
  exists st0,
    init g c = inr st0 /\
    simulate g c = inr st0 /\
    adoption_timeline st0 = [] /\
    run g c = inl IndexError.
Proof.
  intros Hg Hm HT. destruct (init_ok g c Hg Hm) as (st0 & Hinit & _ & Hnil & _).
  assert (Hn : Z.to_nat (time_periods c) = 0) by lia.
  assert (Hsim : simulate g c = inr st0).
  { rewrite (simulate_init g c st0 Hinit), Hn. reflexivity. }
  exists st0. split; [exact Hinit|]. split; [exact Hsim|].
  split; [exact Hnil|].
  unfold run. rewrite Hsim. unfold report. rewrite Hnil. reflexivity.
Qed.

Lemma no_period_raises_index_error_witness :
  exists st0,
    init gen_rich cfg_no_period = inr st0 /\
    simulate gen_rich cfg_no_period = inr st0 /\
    adoption_timeline st0 = [] /\
    run gen_rich cfg_no_period = inl IndexError.
Proof.
  apply (no_period_raises_index_error gen_rich cfg_no_period); by_computation.
Defined.

(** ** The potential adopters of a period *)

(** X6. In every state a run goes through, the potential adopters of the
    next period are the affordable agents that have not adopted: their
    number is the addressable market minus the current count, and the period
    consumes exactly one uniform draw for each of them. *)
Theorem potential_adopters_count
    (g : BitGenerator) (c : Config) (t : nat) (st : State) :
  state_after g c t = inr st ->
  Z.of_nat (length (potential_adopters_idx st))
  = (addressable g c - np_sum (has_adopted st))%Z /\
  rng (step g c st) = rng st + length (potential_adopters_idx st) /\
  (forall i, i ∈ potential_adopters_idx st <->
             has_adopted st !! i = Some false /\ can_afford st !! i = Some true).
Proof.
  intros Hst. destruct (state_after_inv g c t st Hst) as (st0 & Hinit & ->).
  destruct (loop_facts g c st0 t Hinit) as (Hca & Hlen & Hinv & _).
  split.
  - rewrite (length_potential _ Hlen Hinv), Hca. reflexivity.
  - split; [apply step_rng|].
    intros i. unfold potential_adopters_idx.
    rewrite elem_of_np_where. apply lookup_andn.
Qed.

Lemma potential_adopters_count_witness :
  exists st,
    state_after gen_rich cfg_three 0 = inr st /\
    Z.of_nat (length (potential_adopters_idx st))
    = (addressable gen_rich cfg_three - np_sum (has_adopted st))%Z.
Proof.
  destruct (state_after gen_rich cfg_three 0) as [e|st] eqn:Hst;
    [vm_compute in Hst; discriminate|].
  exists st. split; [reflexivity|].
  apply (potential_adopters_count gen_rich cfg_three 0 st Hst).
Defined.

(** ** Periods in which nobody or everybody adopts *)

Lemma adopt_loop_idle g c cur idxs :
  (forall s, wins g c cur s = false) ->
  forall h s, fst (adopt_loop g c cur idxs h s) = h.
Proof.
  intros Hlose. induction idxs as [|idx idxs IH]; intros h s; [reflexivity|].
  rewrite adopt_loop_cons, Hlose. apply IH.
Qed.

(** X7. The value that line 48 computes is compared as it is at the low end
    as well: in a period in which this binary64 value is zero or negative no
    draw is below it and the adoption state is left unchanged. *)
Theorem nonpositive_probability_adopts_nobody
    (g : BitGenerator) (c : Config) (st : State) :
  b64_leb (prob_adopt c (np_sum (has_adopted st))) b64_zero = true ->
  has_adopted (step g c st) = has_adopted st.
Proof.
  intros Hprob. rewrite step_has_adopted. apply adopt_loop_idle.
  intros s. apply unit_float_not_below_zero;
    [apply rand_unit_float | exact Hprob].
Qed.

Lemma nonpositive_probability_adopts_nobody_witness :
  has_adopted (step gen_rich cfg_still st_none) = has_adopted st_none.
Proof.
  apply (nonpositive_probability_adopts_nobody gen_rich cfg_still st_none).
  by_computation.
Defined.

(** With [p = 0] and [q = 0] the computed probability is a zero, or not a
    number when the fraction is not finite. *)
Lemma b64_of_Q_zero (x : Q) :
  (x == 0)%Q ->
  b64_of_Q x = S754_nan \/ exists sx, b64_of_Q x = S754_zero sx.
Proof.
  destruct x as [n d]. unfold Qeq. simpl. intros Hn.
  assert (n = 0%Z) as -> by lia.
  unfold b64_of_Q. simpl Qnum. simpl Qden.
  change (b64_of_Z 0) with (S754_zero false).
  destruct (b64_of_Z (Z.pos d)) as [sy|sy| |sy my ey]; simpl; eauto.
Qed.

Lemma idle_probability (c : Config) (cur : Z) :
  (p c == 0)%Q -> (q c == 0)%Q ->
  prob_adopt c cur = S754_nan \/ exists sx, prob_adopt c cur = S754_zero sx.
Proof.
  intros Hp Hq. unfold prob_adopt.
  destruct (b64_of_Q_zero _ Hp) as [-> | [sp ->]];
    destruct (b64_of_Q_zero _ Hq) as [-> | [sq ->]];
    destruct (b64_div _ _) as [sy|sy| |sy my ey]; simpl; eauto;
    destruct sp, sq, sy; simpl; eauto.
Qed.

Lemma idle_loses g c cur s :
  (p c == 0)%Q -> (q c == 0)%Q -> wins g c cur s = false.
Proof.
  intros Hp Hq. apply unit_float_not_below_null;
    [apply rand_unit_float | apply idle_probability; assumption].
Qed.

Lemma loop_idle g c st n :
  (p c == 0)%Q -> (q c == 0)%Q ->
  has_adopted (loop g c n st) = has_adopted st.
Proof.
  intros Hp Hq. induction n as [|n IH]; [reflexivity|].
  rewrite loop_snoc, step_has_adopted, adopt_loop_idle; [exact IH|].
  intros s. apply idle_loses; assumption.
Qed.

(** X8. With [p = 0] and [q = 0] nobody joins the initial adopters: the
    final adoption state of a run is the one of the initialisation and every
    entry of the timeline is [max(10, N // 100)]. *)
Theorem idle_run_keeps_initial_count
    (g : BitGenerator) (c : Config) (fin : State) :
  (p c == 0)%Q -> (q c == 0)%Q ->
  simulate g c = inr fin ->
  exists st0,
    init g c = inr st0 /\
    has_adopted fin = has_adopted st0 /\
    length (adoption_timeline fin) = Z.to_nat (time_periods c) /\
    forall t x, adoption_timeline fin !! t = Some x ->
                x = initial_count (population_size c).
Proof.
  intros Hp Hq Hsim. destruct (simulate_inv g c fin Hsim) as (st0 & Hinit & ->).
  destruct (init_facts g c st0 Hinit) as (_ & Hnil & Hsum & _).
  exists st0. split; [exact Hinit|].
  split; [apply loop_idle; assumption|].
  split; [apply length_loop_timeline; exact Hnil|].
  intros t x Hx. destruct (timeline_entry g c st0 _ t x Hinit Hx) as [_ ->].
  rewrite loop_idle by assumption. exact Hsum.
Qed.

Lemma idle_run_keeps_initial_count_witness :
  exists fin st0,
    simulate gen_rich cfg_idle = inr fin /\
    init gen_rich cfg_idle = inr st0 /\
    has_adopted fin = has_adopted st0 /\
    adoption_timeline fin = [10; 10; 10]%Z.
Proof.
  destruct (simulate gen_rich cfg_idle) as [e|fin] eqn:Hsim;
    [vm_compute in Hsim; discriminate|].
  destruct (idle_run_keeps_initial_count gen_rich cfg_idle fin) as
    (st0 & Hinit & Hh & _); [by_computation | by_computation | exact Hsim |].
  exists fin, st0. split; [reflexivity|]. split; [exact Hinit|].
  split; [exact Hh|].
  vm_compute in Hsim. injection Hsim as <-. reflexivity.
Defined.

(** ** The gain of a period *)

Lemma successes_bounds g c cur n :
  forall s, (0 <= successes g c cur s n <= Z.of_nat n)%Z.
Proof.
  induction n as [|n IH]; intros s; [simpl; lia|].
  specialize (IH (S s)). simpl successes.
  destruct (wins _ _ _ _); lia.
Qed.

Lemma np_sum_adopt_loop g c cur idxs :
  forall h s,
    NoDup idxs ->
    (forall i, i ∈ idxs -> h !! i = Some false) ->
    np_sum (fst (adopt_loop g c cur idxs h s))
    = (np_sum h + successes g c cur s (length idxs))%Z.
Proof.
  induction idxs as [|idx idxs IH]; intros h s Hnd Hfalse.
  - simpl. lia.
  - apply NoDup_cons in Hnd as [Hidx Hnd].
    rewrite adopt_loop_cons. simpl length. simpl successes.
    destruct (wins _ _ _ _).
    + rewrite IH; [| exact Hnd |].
      * rewrite np_sum_insert_false; [lia|]. apply Hfalse. left.
      * intros j Hj. rewrite list_lookup_insert_ne.
        -- apply Hfalse. right. exact Hj.
        -- intros ->. exact (Hidx Hj).
    + rewrite IH; [lia | exact Hnd |].
      intros j Hj. apply Hfalse. right. exact Hj.
Qed.

(** X9. The adopted-count grows in a period by the number of draws that
    pass the test of line 49, the binary64 comparison with the value
    computed on line 48, one draw per potential adopter, so by at most the
    number of potential adopters. *)
Theorem period_gain_is_successes (g : BitGenerator) (c : Config) (st : State) :
  np_sum (has_adopted (step g c st))
  = (np_sum (has_adopted st)
     + successes g c (np_sum (has_adopted st)) (rng st)
         (length (potential_adopters_idx st)))%Z /\
  (np_sum (has_adopted st) <= np_sum (has_adopted (step g c st))
   <= np_sum (has_adopted st)
      + Z.of_nat (length (potential_adopters_idx st)))%Z.
Proof.
  assert (Heq : np_sum (has_adopted (step g c st))
    = (np_sum (has_adopted st)
       + successes g c (np_sum (has_adopted st)) (rng st)
           (length (potential_adopters_idx st)))%Z).
  { rewrite step_has_adopted. unfold potential_adopters_idx.
    apply np_sum_adopt_loop; [apply NoDup_where_from|].
    intros i Hi. apply elem_of_np_where, lookup_andn in Hi. tauto. }
  split; [exact Heq|]. rewrite Heq.
  pose proof (successes_bounds g c (np_sum (has_adopted st))
                (length (potential_adopters_idx st)) (rng st)).
  lia.
Qed.

(** ** The initial adopters *)

(** X10. After a successful initialisation the initial adopters are
    [max(10, N // 100)] distinct affordable agents, and the adoption state
    is true exactly at them. *)
Theorem initial_adopters_are_the_seed
    (g : BitGenerator) (c : Config) (st0 : State) :
  init g c = inr st0 ->
  NoDup (initial_adopters st0) /\
  Z.of_nat (length (initial_adopters st0)) = initial_count (population_size c) /\
  (forall i, i ∈ initial_adopters st0 -> can_afford st0 !! i = Some true) /\
  (forall i, has_adopted st0 !! i = Some true <-> i ∈ initial_adopters st0).
Proof.
  intros Hinit. destruct (init_inv g c st0 Hinit) as [Hg Hm].
  destruct (init_ok g c Hg Hm) as (st & Hst & Hca & _ & Hh & Hnd & Hlen & Hin).
  rewrite Hinit in Hst. injection Hst as <-.
  split; [exact Hnd|]. split; [exact Hlen|].
  split; [intros i Hi; rewrite Hca; apply Hin; exact Hi|].
  intros i. rewrite Hh, lookup_set_true. split.
  - intros [H | [Hi _]]; [|exact Hi].
    apply lookup_replicate in H as [H _]. discriminate.
  - intros Hi. right. split; [exact Hi|].
    unfold np_zeros. rewrite length_replicate.
    apply Hin, lookup_lt_Some in Hi. rewrite length_market in Hi. exact Hi.
Qed.

Lemma initial_adopters_are_the_seed_witness :
  exists st0,
    init gen_rich cfg_three = inr st0 /\
    NoDup (initial_adopters st0) /\
    Z.of_nat (length (initial_adopters st0)) = 10%Z.
Proof.
  destruct (init gen_rich cfg_three) as [e|st0] eqn:Hinit;
    [vm_compute in Hinit; discriminate|].
  destruct (initial_adopters_are_the_seed gen_rich cfg_three st0 Hinit)
    as (Hnd & Hlen & _).
  exists st0. auto.
Defined.

(** ** The addressable share *)

Lemma report_total g c st r :
  run g c = inr (st, r) ->
  total_addressable_market r = addressable g c /\
  (initial_count (population_size c) <= addressable g c)%Z.
Proof.
  intros Hrun. destruct (run_inv g c st r Hrun) as (st0 & Hinit & -> & Hrep).
  destruct (init_inv g c st0 Hinit) as [_ Hm].
  destruct (loop_facts g c st0 (Z.to_nat (time_periods c)) Hinit) as (Hca & _).
  unfold report in Hrep. destruct (last _); [|discriminate].
  injection Hrep as <-. simpl. rewrite Hca. auto.
Qed.

(** X11. In a run that returns the population size is positive and the
    share of line 90, the addressable market over the population times 100,
    lies between 0 and 100. *)
Theorem addressable_share_is_a_percentage
    (g : BitGenerator) (c : Config) (st : State) (r : Report) :
  run g c = inr (st, r) ->
  (0 < population_size c)%Z /\
  (total_addressable_market r <= population_size c)%Z /\
  (0 <= addressable_share (total_addressable_market r) (population_size c))%Q /\
  (addressable_share (total_addressable_market r) (population_size c) <= 100)%Q.
Proof.
  intros Hrun. destruct (report_total g c st r Hrun) as [-> Hm].
  pose proof (addressable_le_population g c) as Hle.
  pose proof (initial_count_ge_10 (population_size c)) as Hk.
  assert (Hn : (0 < population_size c)%Z) by lia.
  split; [exact Hn|]. split; [lia|].
  unfold addressable_share. apply percentage_bounds; lia.
Qed.

Lemma addressable_share_is_a_percentage_witness :
  exists st r,
    run gen_rich cfg_three = inr (st, r) /\
    (addressable_share (total_addressable_market r)
       (population_size cfg_three) <= 100)%Q.
Proof.
  destruct (run gen_rich cfg_three) as [e|[st r]] eqn:Hrun;
    [vm_compute in Hrun; discriminate|].
  exists st, r. split; [reflexivity|].
  apply (addressable_share_is_a_percentage gen_rich cfg_three st r Hrun).
Defined.

(** ** A market that fills in one period *)

Lemma where_from_andn_self (k : nat) (a : list bool) :
  where_from k (andn a a) = [].
Proof.
  revert k. induction a as [|x a IH]; intros k; [reflexivity|].
  change (andn (x :: a) (x :: a)) with ((negb x && x) :: andn a a).
  destruct x; simpl; apply IH.
Qed.

Lemma step_adopts_eligible g c st i :
  b64_leb b64_one (prob_adopt c (np_sum (has_adopted st))) = true ->
  has_adopted st !! i = Some false ->
  can_afford st !! i = Some true ->
  has_adopted (step g c st) !! i = Some true.
Proof.
  intros Hprob Hi Hca. rewrite step_has_adopted, lookup_adopt_loop. right.
  split; [apply (lookup_lt_Some _ _ _ Hi)|].
  assert (Hin : i ∈ np_where (andn (has_adopted st) (can_afford st))).
  { apply elem_of_np_where, lookup_andn. auto. }
  apply list_elem_of_lookup in Hin as [j Hj]. exists j.
  split; [exact Hj|].
  apply unit_float_below_one; [apply rand_unit_float | exact Hprob].
Qed.

Lemma step_certain g c st :
  length (has_adopted st) = length (can_afford st) ->
  adopters_affordable st ->
  b64_leb b64_one (prob_adopt c (np_sum (has_adopted st))) = true ->
  has_adopted (step g c st) = can_afford st.
Proof.
  intros Hlen Hinv Hprob. apply bool_list_ext.
  - rewrite <- Hlen. symmetry. apply grows_length, step_grows.
  - intros i. split.
    + intros Hi. rewrite <- (step_can_afford g c st).
      apply (step_affordable g c st Hinv). exact Hi.
    + intros Hca.
      destruct (has_adopted st !! i) as [[|]|] eqn:Eh.
      * apply (grows_lookup _ _ _ (step_grows g c st) Eh).
      * apply step_adopts_eligible; assumption.
      * apply lookup_ge_None in Eh. apply lookup_lt_Some in Hca. lia.
Qed.

(** X12. When the binary64 value that line 48 computes from the count of
    the initial adopters is at least 1.0, the whole addressable market has
    adopted after the first period: every timeline entry after the first is
    the addressable market size, and with at least one period the final
    adoption state is the affordability mask. *)
Theorem certain_adoption_fills_market
    (g : BitGenerator) (c : Config) (fin : State) :
  b64_leb b64_one (prob_adopt c (initial_count (population_size c))) = true ->
  simulate g c = inr fin ->
  (forall t x, 1 <= t -> adoption_timeline fin !! t = Some x ->
               x = addressable g c) /\
  ((0 < time_periods c)%Z -> has_adopted fin = can_afford fin).
Proof.
  intros Hprob Hsim. destruct (simulate_inv g c fin Hsim) as (st0 & Hinit & ->).
  destruct (init_facts g c st0 Hinit) as (Hca & _ & Hsum & Hlen & Hinv).
  rewrite <- Hsum in Hprob.
  pose proof (step_certain g c st0 Hlen Hinv Hprob) as Hfull.
  assert (Hafter : forall n, has_adopted (loop g c (S n) st0) = can_afford st0).
  { intros n. change (loop g c (S n) st0) with (loop g c n (step g c st0)).
    rewrite loop_saturated; [exact Hfull|].
    rewrite Hfull, step_can_afford. apply where_from_andn_self. }
  split.
  - intros t x Ht Hx. destruct (timeline_entry g c st0 _ t x Hinit Hx) as [_ ->].
    destruct t as [|t]; [lia|].
    rewrite Hafter, Hca. reflexivity.
  - intros HT. destruct (Z.to_nat (time_periods c)) as [|n] eqn:En; [lia|].
    rewrite Hafter, loop_can_afford. reflexivity.
Qed.

Lemma certain_adoption_fills_market_witness :
  exists fin,
    simulate gen_high cfg_certain = inr fin /\
    adoption_timeline fin = [10; 20; 20]%Z /\
    has_adopted fin = can_afford fin.
Proof.
  destruct (simulate gen_high cfg_certain) as [e|fin] eqn:Hsim;
    [vm_compute in Hsim; discriminate|].
  destruct (certain_adoption_fills_market gen_high cfg_certain fin)
    as [_ Hfin]; [by_computation | exact Hsim |].
  exists fin. split; [reflexivity|].
  split; [|apply Hfin; reflexivity].
  vm_compute in Hsim. injection Hsim as <-. reflexivity.
Defined.

(** ** Who adopts in a period *)

(** X13. A period adopts exactly the winners of its draws: an agent is
    adopted after the period when it was adopted before, or when it is the
    [j]-th potential adopter and the float of the [j]-th draw from the
    cursor of the period is below, in binary64, the value that line 48
    computes from the count at the start of the period. *)
Theorem period_adopts_exactly_the_winners
    (g : BitGenerator) (c : Config) (st : State) (i : nat) :
  has_adopted (step g c st) !! i = Some true <->
  has_adopted st !! i = Some true \/
  exists j,
    potential_adopters_idx st !! j = Some i /\
    b64_ltb (b64_of_unit (fst (rand g (rng st + j))))
      (prob_adopt c (np_sum (has_adopted st))) = true.
Proof.
  rewrite step_has_adopted, lookup_adopt_loop.
  unfold potential_adopters_idx, wins.
  split.
  - intros [H | [_ (j & Hj & Hw)]]; [auto|].
    right. exists j. split; [exact Hj | exact Hw].
  - intros [H | (j & Hj & Hw)]; [auto|]. right. split.
    + assert (Hi : i ∈ np_where (andn (has_adopted st) (can_afford st))).
      { apply list_elem_of_lookup. eauto. }
      apply elem_of_np_where, lookup_andn in Hi as [Hi _].
      apply (lookup_lt_Some _ _ _ Hi).
    + exists j. split; [exact Hj | exact Hw].
Qed.

(** ** Inputs taken from the sliders *)

Lemma fraction_bounds (a b : Z) :
  (0 < a <= b)%Z ->
  (0 < inject_Z a / inject_Z b)%Q /\ (inject_Z a / inject_Z b <= 1)%Q.
Proof.
  intros H. destruct b as [|n|n]; try lia. destruct a as [|m|m]; try lia.
  unfold Qlt, Qle, Qdiv, Qmult, Qinv, inject_Z. simpl. split; lia.
Qed.

Lemma slider_probability_bounds (c : Config) (cur : Z) :
  from_sliders c ->
  (0 < cur <= population_size c)%Z ->
  (0 < adoption_probability c cur)%Q /\
  (adoption_probability c cur <= 9 # 10)%Q.
Proof.
  intros [_ _ [Hp0 Hp1] [Hq0 Hq1] _ _] Hcur.
  destruct (fraction_bounds cur (population_size c) Hcur) as [Hf0 Hf1].
  unfold adoption_probability.
  set (f := (inject_Z cur / inject_Z (population_size c))%Q) in *.
  split; nra.
Qed.

(** X14. For inputs within the slider ranges the probability of line 48 is
    positive and at most 0.9 in every state a run goes through, so it never
    reaches the ends of the unit interval. *)
Theorem slider_probability_is_proper
    (g : BitGenerator) (c : Config) (t : nat) (st : State) :
  from_sliders c ->
  state_after g c t = inr st ->
  (0 < adoption_probability c (np_sum (has_adopted st)))%Q /\
  (adoption_probability c (np_sum (has_adopted st)) <= 9 # 10)%Q.
Proof.
  intros Hs Hst. destruct (state_after_inv g c t st Hst) as (st0 & Hinit & ->).
  destruct (loop_facts g c st0 t Hinit) as (_ & _ & _ & Hlo & Hhi).
  pose proof (addressable_le_population g c) as Hle.
  pose proof (initial_count_ge_10 (population_size c)) as Hk.
  apply slider_probability_bounds; [exact Hs|].
  destruct Hs as [Hn _ _ _ _ _]. lia.
Qed.

Lemma slider_probability_is_proper_witness :
  exists st,
    state_after gen_rich cfg_default 0 = inr st /\
    (0 < adoption_probability cfg_default (np_sum (has_adopted st)))%Q /\
    (adoption_probability cfg_default (np_sum (has_adopted st)) <= 9 # 10)%Q.
Proof.
  destruct (state_after gen_rich cfg_default 0) as [e|st] eqn:Hst;
    [vm_compute in Hst; discriminate|].
  exists st. split; [reflexivity|].
  apply (slider_probability_is_proper gen_rich cfg_default 0 st);
    [|exact Hst].
  constructor; repeat split; by_computation.
Defined.

(** X15. For inputs within the slider ranges the number of initial adopters
    is between 10 and 50, and the run has one failure only: it returns when
    the addressable market holds that many agents, and ends with the
    [ValueError] of [np.random.choice] when it does not. *)
Theorem slider_run_outcome (g : BitGenerator) (c : Config) :
  from_sliders c ->
  (10 <= initial_count (population_size c) <= 50)%Z /\
  ((initial_count (population_size c) <= addressable g c)%Z ->
   exists st r, run g c = inr (st, r)) /\
  ((addressable g c < initial_count (population_size c))%Z ->
   run g c = inl (ValueError Choice)).
Proof.
  intros [Hn [Hg _] _ _ _ HT].
  assert (Hgini : (0 < gini c)%Q) by lra.
  split.
  - unfold initial_count.
    assert (population_size c / 100 <= 50)%Z
      by (apply Z.div_le_upper_bound; lia).
    lia.
  - split.
    + intros Hm. apply run_returns; [exact Hgini | exact Hm | lia].
    + intros Hm. apply init_fails_everywhere, init_choice_rejects;
        [exact Hgini | lia | exact Hm].
Qed.

Lemma slider_run_outcome_witness :
  exists st r, run gen_rich cfg_default = inr (st, r).
Proof.
  destruct (slider_run_outcome gen_rich cfg_default) as (_ & Hok & _).
  - constructor; repeat split; by_computation.
  - apply Hok. by_computation.
Defined.
